(** * kstrtox: strict string-to-integer and string-to-boolean parsing

    A shallow embedding of [linux/kstrtox.c] and the properties of its
    parsers: radix resolution, the digit accumulator, the 64-bit parsers,
    the width-narrowing wrappers and [kstrtobool]. *)

From Stdlib Require Import ZArith String Ascii List Bool Lia.
Import ListNotations.

Local Open Scope Z_scope.

(** ** C strings

    A [const char *] is a Rocq [string]: the bytes before the terminator.
    Reading at or past the end yields the terminating NUL.  A byte is read
    as its code in [0, 255]; every comparison the source makes on a [char]
    has the same outcome for a signed and for an unsigned [char], because
    all the characters it compares with are below 128. *)
Module CString.

Definition code (c : ascii) : Z := Z.of_N (N_of_ascii c).

(** [s[i]] *)
Definition at_ (s : string) (i : nat) : Z :=
  match String.get i s with
  | Some c => code c
  | None => 0
  end.

(** [s + n] *)
Fixpoint advance (n : nat) (s : string) : string :=
  match n, s with
  | O, _ => s
  | S n', String _ s' => advance n' s'
  | S _, EmptyString => EmptyString
  end.

End CString.
Import CString.

Notation "s .[ i ]" := (at_ s i) (at level 1, format "s .[ i ]").
Notation "` c" := (code c%char) (at level 8, format "` c").

(** ** Constants and library macros the source relies on *)

Definition KSTRTOX_OVERFLOW : Z := Z.shiftl 1 31.

(** Modelled from the spec: [ULLONG_MAX] of [<limits.h>], the largest value
    of the 64-bit unsigned accumulator. *)
Definition ULLONG_MAX : Z := 2 ^ 64 - 1.

(** Modelled from the spec: the error kinds INVALID and RANGE are the
    [<errno.h>] codes [EINVAL] and [ERANGE], which are not under src/. *)
Definition EINVAL : Z := 22.
Definition ERANGE : Z := 34.

(** Modelled from the spec: [_tolower] comes from a header that is not
    under src/; the spec reads it as case-insensitive matching of ASCII
    letters. *)
Definition _tolower (c : Z) : Z :=
  if (`"A" <=? c) && (c <=? `"Z") then c + 32 else c.

(** Modelled from the spec: [isxdigit] of [<ctype.h>], "a valid hex digit". *)
Definition isxdigit (c : Z) : bool :=
  ((`"0" <=? c) && (c <=? `"9"))
  || ((`"a" <=? c) && (c <=? `"f"))
  || ((`"A" <=? c) && (c <=? `"F")).

(** Integer conversions: to an unsigned type of [w] bits, and to a signed
    one (two's complement wrap-around).  [long long] has 64 bits, [int] 32,
    [u16]/[s16] 16 and [u8]/[s8] 8. *)
Definition cast_unsigned (w x : Z) : Z := x mod 2 ^ w.
Definition cast_signed (w x : Z) : Z := (x + 2 ^ (w - 1)) mod 2 ^ w - 2 ^ (w - 1).

(** ** Radix resolver *)

Definition _parse_integer_fixup_radix (s : string) (base : Z) : string * Z :=
  let base :=
    if base =? 0 then
      if s.[0] =? `"0" then
        if (_tolower s.[1] =? `"x") && isxdigit s.[2] then 16 else 8
      else 10
    else base in
  let s :=
    if (base =? 16) && (s.[0] =? `"0") && (_tolower s.[1] =? `"x")
    then advance 2 s else s in
  (s, base).

(** ** Unsigned digit accumulator *)

(** The value of a digit character, or [None] where the loop breaks. *)
Definition digit_of_char (c : Z) : option Z :=
  if (`"0" <=? c) && (c <=? `"9") then Some (c - `"0")
  else if (`"a" <=? _tolower c) && (_tolower c <=? `"f")
       then Some (_tolower c - `"a" + 10)
       else None.

(** The [while] loop over the characters of [s], on the state
    [(res, rv, overflow)]: [res] is an [unsigned long long] and wraps at
    2^64, [rv] an [unsigned int] and wraps at 2^32. *)
Fixpoint parse_loop (s : string) (base res rv overflow : Z) : Z * Z * Z :=
  match s with
  | EmptyString => (res, rv, overflow)
  | String c s' =>
    if code c =? 0 then (res, rv, overflow) else
    match digit_of_char (code c) with
    | None => (res, rv, overflow)
    | Some val =>
      if val >=? base then (res, rv, overflow) else
      let overflow :=
        if negb (Z.land res (Z.shiftl ULLONG_MAX 60 mod 2 ^ 64) =? 0) then
          if res >? (ULLONG_MAX - val / base) mod 2 ^ 64 then 1 else overflow
        else overflow in
      parse_loop s' base ((res * base + val) mod 2 ^ 64)
                 ((rv + 1) mod 2 ^ 32) overflow
    end
  end.

(** Returns [(rv, p)]: the packed return value and what is stored in [*p]. *)
Definition _parse_integer (s : string) (base : Z) : Z * Z :=
  let '(res, rv, overflow) := parse_loop s base 0 0 0 in
  let rv := if negb (overflow =? 0) then Z.lor rv KSTRTOX_OVERFLOW else rv in
  (rv, res).

(** ** 64-bit parsers

    A function [int f(..., T *res)] takes the content of the result slot
    before the call and returns the return code with the content of the
    slot after the call. *)

Definition _kstrtoull (s : string) (base : Z) (res : Z) : Z * Z :=
  let '(s, base) := _parse_integer_fixup_radix s base in
  let '(rv, _res) := _parse_integer s base in
  if negb (Z.land rv KSTRTOX_OVERFLOW =? 0) then (- ERANGE, res)
  else if rv =? 0 then (- EINVAL, res)
  else
    let s := advance (Z.to_nat rv) s in
    let s := if s.[0] =? `"010" then advance 1 s else s in
    if negb (s.[0] =? 0) then (- EINVAL, res)
    else (0, _res).

Definition kstrtoull (s : string) (base : Z) (res : Z) : Z * Z :=
  let s := if s.[0] =? `"+" then advance 1 s else s in
  _kstrtoull s base res.

Section Locals.

(** What the local [tmp] of a caller holds before it is written: C leaves
    it indeterminate. *)
Variable indeterminate : Z.

(** The width of [long]. *)
Variable BITS_PER_LONG : Z.

Definition kstrtoll (s : string) (base : Z) (res : Z) : Z * Z :=
  if s.[0] =? `"-" then
    let '(rv, tmp) := _kstrtoull (advance 1 s) base indeterminate in
    if rv <? 0 then (rv, res)
    else if cast_signed 64 ((- tmp) mod 2 ^ 64) >? 0 then (- ERANGE, res)
    else (0, cast_signed 64 ((- tmp) mod 2 ^ 64))
  else
    let '(rv, tmp) := kstrtoull s base indeterminate in
    if rv <? 0 then (rv, res)
    else if cast_signed 64 tmp <? 0 then (- ERANGE, res)
    else (0, cast_signed 64 tmp).

(** ** Width-narrowing wrappers *)

Definition _kstrtoul (s : string) (base : Z) (res : Z) : Z * Z :=
  let '(rv, tmp) := kstrtoull s base indeterminate in
  if rv <? 0 then (rv, res)
  else if negb (tmp =? cast_unsigned 64 (cast_unsigned BITS_PER_LONG tmp))
  then (- ERANGE, res)
  else (0, cast_unsigned BITS_PER_LONG tmp).

Definition _kstrtol (s : string) (base : Z) (res : Z) : Z * Z :=
  let '(rv, tmp) := kstrtoll s base indeterminate in
  if rv <? 0 then (rv, res)
  else if negb (tmp =? cast_signed 64 (cast_signed BITS_PER_LONG tmp))
  then (- ERANGE, res)
  else (0, cast_signed BITS_PER_LONG tmp).

Definition kstrtouint (s : string) (base : Z) (res : Z) : Z * Z :=
  let '(rv, tmp) := kstrtoull s base indeterminate in
  if rv <? 0 then (rv, res)
  else if negb (tmp =? cast_unsigned 64 (cast_unsigned 32 tmp))
  then (- ERANGE, res)
  else (0, cast_unsigned 32 tmp).

Definition kstrtoint (s : string) (base : Z) (res : Z) : Z * Z :=
  let '(rv, tmp) := kstrtoll s base indeterminate in
  if rv <? 0 then (rv, res)
  else if negb (tmp =? cast_signed 64 (cast_signed 32 tmp))
  then (- ERANGE, res)
  else (0, cast_signed 32 tmp).

Definition kstrtou16 (s : string) (base : Z) (res : Z) : Z * Z :=
  let '(rv, tmp) := kstrtoull s base indeterminate in
  if rv <? 0 then (rv, res)
  else if negb (tmp =? cast_unsigned 64 (cast_unsigned 16 tmp))
  then (- ERANGE, res)
  else (0, cast_unsigned 16 tmp).

Definition kstrtos16 (s : string) (base : Z) (res : Z) : Z * Z :=
  let '(rv, tmp) := kstrtoll s base indeterminate in
  if rv <? 0 then (rv, res)
  else if negb (tmp =? cast_signed 64 (cast_signed 16 tmp))
  then (- ERANGE, res)
  else (0, cast_signed 16 tmp).

Definition kstrtou8 (s : string) (base : Z) (res : Z) : Z * Z :=
  let '(rv, tmp) := kstrtoull s base indeterminate in
  if rv <? 0 then (rv, res)
  else if negb (tmp =? cast_unsigned 64 (cast_unsigned 8 tmp))
  then (- ERANGE, res)
  else (0, cast_unsigned 8 tmp).

Definition kstrtos8 (s : string) (base : Z) (res : Z) : Z * Z :=
  let '(rv, tmp) := kstrtoll s base indeterminate in
  if rv <? 0 then (rv, res)
  else if negb (tmp =? cast_signed 64 (cast_signed 8 tmp))
  then (- ERANGE, res)
  else (0, cast_signed 8 tmp).

End Locals.

(** ** Boolean parser

    [s] is [None] for a null pointer. *)
Definition kstrtobool (s : option string) (res : bool) : Z * bool :=
  match s with
  | None => (- EINVAL, res)
  | Some s =>
    let c0 := s.[0] in
    if (c0 =? `"y") || (c0 =? `"Y") || (c0 =? `"1") then (0, true)
    else if (c0 =? `"n") || (c0 =? `"N") || (c0 =? `"0") then (0, false)
    else if (c0 =? `"o") || (c0 =? `"O") then
      let c1 := s.[1] in
      if (c1 =? `"n") || (c1 =? `"N") then (0, true)
      else if (c1 =? `"f") || (c1 =? `"F") then (0, false)
      else (- EINVAL, res)
    else (- EINVAL, res)
  end.

Local Open Scope string_scope.
Local Open Scope Z_scope.

(** ** Reference notions

    The digit table, the maximal run of valid digits and its exact,
    unbounded value, stated on the string itself; the theorems below
    compare the code with these. *)

(** Where [c] stands in [alphabet], counted from 0. *)
Fixpoint position (c : ascii) (alphabet : string) : option Z :=
  match alphabet with
  | EmptyString => None
  | String d rest =>
    if (c =? d)%char then Some 0 else option_map Z.succ (position c rest)
  end.

(** The value of a digit: its place among the sixteen digits, letters in
    either case. *)
Definition digit_value (c : ascii) : option Z :=
  match position c "0123456789abcdef" with
  | Some v => Some v
  | None => position c "0123456789ABCDEF"
  end.

(** The values of the maximal leading run of digits valid in [base]. *)
Fixpoint digit_run (base : Z) (s : string) : list Z :=
  match s with
  | EmptyString => []
  | String c s' =>
    match digit_value c with
    | Some v => if v <? base then v :: digit_run base s' else []
    | None => []
    end
  end.

(** Place-value accumulation over the integers, without wrap-around. *)
Definition horner (base : Z) (acc : Z) (ds : list Z) : Z :=
  fold_left (fun a d => a * base + d) ds acc.

Definition exact_value (base : Z) (ds : list Z) : Z := horner base 0 ds.

(** What follows the consumed digits and at most one newline. *)
Definition skip_newline (s : string) : string :=
  match s with
  | String "010" s' => s'
  | _ => s
  end.

Definition strip_plus (s : string) : string :=
  match s with
  | String "+" s' => s'
  | _ => s
  end.

(** What [_kstrtoull] returns once the radix is resolved, in terms of the
    digit table: the digits' value wraps around on overflow. *)
Definition scan_outcome (base : Z) (s : string) (res : Z) : Z * Z :=
  let run := digit_run base s in
  match run with
  | [] => (- EINVAL, res)
  | _ :: _ =>
    if (skip_newline (advance (List.length run) s)).[0] =? 0
    then (0, exact_value base run mod 2 ^ 64)
    else (- EINVAL, res)
  end.

(** The prefixes the resolver looks for, read off the string. *)
Definition leading_zero (s : string) : bool :=
  match s with
  | String c _ => (c =? "0")%char
  | EmptyString => false
  end.

Definition hex_prefixed (s : string) : bool :=
  match s with
  | String c (String x _) => (c =? "0")%char && ((x =? "x")%char || (x =? "X")%char)
  | _ => false
  end.

Definition autodetect_hex (s : string) : bool :=
  match s with
  | String c (String x (String h _)) =>
    (c =? "0")%char && ((x =? "x")%char || (x =? "X")%char)
    && match digit_value h with Some _ => true | None => false end
  | _ => false
  end.

(** The contract of a wrapper: [wide] is the outcome of the 64-bit parse
    into the local [tmp], [narrow] the outcome of the wrapper on a result
    slot that held [res], and [cast] narrows to the target type and widens
    back. *)
Definition narrowing_contract (cast : Z -> Z) (wide narrow : Z * Z) (res : Z) : Prop :=
  (fst narrow = 0 <-> fst wide = 0 /\ cast (snd wide) = snd wide)
  /\ (fst narrow = 0 -> snd narrow = cast (snd wide))
  /\ (fst wide = 0 -> cast (snd wide) <> snd wide -> narrow = (- ERANGE, res))
  /\ (fst wide <> 0 -> narrow = (fst wide, res)).

(** The tokens as the specification lists them. *)
Definition bool_token (s : string) : option bool :=
  match s with
  | String ("y" | "Y" | "1") _ => Some true
  | String ("n" | "N" | "0") _ => Some false
  | String ("o" | "O") (String ("n" | "N") _) => Some true
  | String ("o" | "O") (String ("f" | "F") _) => Some false
  | _ => None
  end%char.

(** Every character of [s] is a digit below [base]. *)
Fixpoint all_valid_digits (base : Z) (s : string) : bool :=
  match s with
  | EmptyString => true
  | String c s' =>
    match digit_value c with
    | Some v => (v <? base) && all_valid_digits base s'
    | None => false
    end
  end.

(** How a parser treats its result slot: it either succeeds and writes a
    value that does not depend on the slot, or returns an error code and
    leaves the slot as it was. *)
Definition slot_discipline (f : Z -> Z * Z) : Prop :=
  exists rc v, (rc = 0 \/ rc = - EINVAL \/ rc = - ERANGE)
               /\ forall res, f res = if rc =? 0 then (0, v) else (rc, res).

(** Two runs of a parser into slots of different content agree on the
    return code and, on success, on what the slot receives. *)
Definition same_parse (w1 w2 : Z * Z) : Prop :=
  fst w1 = fst w2 /\ (fst w1 = 0 -> snd w1 = snd w2).

(** An end of line: nothing, or one newline. *)
Definition line_end (s : string) : bool :=
  match s with
  | EmptyString => true
  | String c EmptyString => (c =? "010")%char
  | _ => false
  end.

(** No NUL byte before the end: the string is the whole C string. *)
Fixpoint nul_free (s : string) : bool :=
  match s with
  | EmptyString => true
  | String c s' => negb (c =? "000")%char && nul_free s'
  end.

(** The first [n] characters. *)
Fixpoint take (n : nat) (s : string) : string :=
  match n, s with
  | S n', String c s' => String c (take n' s')
  | _, _ => EmptyString
  end.

(** ASCII letters folded to lower case, as [_tolower] does. *)
Definition lower_char (c : ascii) : ascii :=
  ascii_of_N (Z.to_N (_tolower (code c))).

Fixpoint lower (s : string) : string :=
  match s with
  | EmptyString => EmptyString
  | String c s' => String (lower_char c) (lower s')
  end.


(** ** The digit accumulator against the digit table *)

Lemma code_inj (c d : ascii) : code c = code d -> c = d.
Proof.
  unfold code; intros H.
  apply N2Z.inj in H.
  rewrite <- (ascii_N_embedding c), <- (ascii_N_embedding d); congruence.
Qed.

Lemma digit_of_char_table (c : ascii) : digit_of_char (code c) = digit_value c.
Proof.
  destruct c as [[|] [|] [|] [|] [|] [|] [|] [|]]; vm_compute; reflexivity.
Qed.

Lemma digit_value_range (c : ascii) (v : Z) :
  digit_value c = Some v -> 0 <= v < 16.
Proof.
  destruct c as [[|] [|] [|] [|] [|] [|] [|] [|]]; vm_compute; intros H;
    try discriminate; injection H as <-; split; congruence.
Qed.

Lemma digit_value_nul (c : ascii) : code c = 0 -> digit_value c = None.
Proof.
  intros H. change 0 with (code "000"%char) in H.
  apply code_inj in H; subst; reflexivity.
Qed.

Lemma isxdigit_table (c : ascii) :
  isxdigit (code c) = match digit_value c with Some _ => true | None => false end.
Proof.
  destruct c as [[|] [|] [|] [|] [|] [|] [|] [|]]; vm_compute; reflexivity.
Qed.

Lemma tolower_x (c : ascii) :
  (_tolower (code c) =? `"x") = ((code c =? `"x") || (code c =? `"X")).
Proof.
  destruct c as [[|] [|] [|] [|] [|] [|] [|] [|]]; vm_compute; reflexivity.
Qed.

(** [_tolower] is [c | 0x20] in the Linux kernel's own header: every test
    the source makes with it comes out as with ASCII case folding. *)
Lemma tolower_as_bit_or (c : ascii) :
  let b := Z.lor (code c) 32 in
  ((`"a" <=? b) && (b <=? `"f"))
  = ((`"a" <=? _tolower (code c)) && (_tolower (code c) <=? `"f"))
  /\ ((`"a" <=? b) && (b <=? `"f") = true -> b = _tolower (code c))
  /\ (b =? `"x") = (_tolower (code c) =? `"x").
Proof.
  destruct c as [[|] [|] [|] [|] [|] [|] [|] [|]]; vm_compute;
    repeat split; congruence.
Qed.

Lemma horner_mod base m acc ds :
  horner base (acc mod m) ds mod m = horner base acc ds mod m.
Proof.
  revert acc; induction ds as [|d ds IH]; intros acc; cbn.
  - apply Zmod_mod.
  - fold (horner base ((acc mod m) * base + d) ds).
    fold (horner base (acc * base + d) ds).
    rewrite <- (IH (acc mod m * base + d)), <- (IH (acc * base + d)).
    do 2 f_equal.
    rewrite <- Zplus_mod_idemp_l, Zmult_mod_idemp_l, Zplus_mod_idemp_l.
    reflexivity.
Qed.

(** The loop never raises [overflow]: a consumed digit has [val < base], so
    [val / base] is [0] and [res] is compared with [ULLONG_MAX] itself. *)
Lemma overflow_test_never_fires base res val :
  0 <= res < 2 ^ 64 -> 0 <= val < base ->
  (res >? (ULLONG_MAX - val / base) mod 2 ^ 64) = false.
Proof.
  intros Hres Hval.
  rewrite Z.div_small by lia.
  unfold ULLONG_MAX. rewrite Z.sub_0_r, Z.mod_small by lia.
  rewrite Z.gtb_ltb. apply Z.ltb_ge. lia.
Qed.

Lemma parse_loop_spec (s : string) (base res rv overflow : Z) :
  0 <= res < 2 ^ 64 -> 0 <= rv < 2 ^ 32 ->
  parse_loop s base res rv overflow =
  (horner base res (digit_run base s) mod 2 ^ 64,
   (rv + Z.of_nat (List.length (digit_run base s))) mod 2 ^ 32,
   overflow).
Proof.
  assert (Hstop : forall res rv, 0 <= res < 2 ^ 64 -> 0 <= rv < 2 ^ 32 ->
            (res, rv, overflow) =
            (horner base res [] mod 2 ^ 64,
             (rv + Z.of_nat (List.length (@nil Z))) mod 2 ^ 32, overflow)).
  { intros r v Hr Hv. cbn [horner fold_left List.length Z.of_nat].
    rewrite Z.add_0_r, !Z.mod_small by lia. reflexivity. }
  revert res rv; induction s as [|c s IH]; intros res rv Hres Hrv.
  - apply Hstop; assumption.
  - cbn [parse_loop digit_run].
    destruct (code c =? 0) eqn:Hnul.
    + apply Z.eqb_eq, digit_value_nul in Hnul. rewrite Hnul.
      apply Hstop; assumption.
    + rewrite digit_of_char_table.
      destruct (digit_value c) as [v|] eqn:Hv; [|apply Hstop; assumption].
      pose proof (digit_value_range c v Hv) as Hv16.
      rewrite Z.geb_leb.
      destruct (v <? base) eqn:Hlt.
      * apply Z.ltb_lt in Hlt.
        replace (base <=? v) with false by (symmetry; apply Z.leb_gt; lia).
        rewrite overflow_test_never_fires by lia.
        replace (if negb _ then overflow else overflow) with overflow
          by (destruct (negb _); reflexivity).
        rewrite IH by (apply Z.mod_pos_bound; lia).
        cbn [List.length horner fold_left].
        fold (horner base (res * base + v) (digit_run base s)).
        rewrite horner_mod. f_equal. f_equal.
        rewrite Zplus_mod_idemp_l. f_equal. lia.
      * apply Z.ltb_ge in Hlt.
        replace (base <=? v) with true by (symmetry; apply Z.leb_le; lia).
        apply Hstop; assumption.
Qed.

Lemma _parse_integer_spec (s : string) (base : Z) :
  _parse_integer s base =
  (Z.of_nat (List.length (digit_run base s)) mod 2 ^ 32,
   exact_value base (digit_run base s) mod 2 ^ 64).
Proof.
  unfold _parse_integer.
  rewrite parse_loop_spec by lia.
  rewrite Z.add_0_l. reflexivity.
Qed.

Lemma low_bits_small (n : Z) :
  0 <= n < 2 ^ 31 -> Z.land n (KSTRTOX_OVERFLOW - 1) = n.
Proof.
  intros Hn. change (KSTRTOX_OVERFLOW - 1) with (Z.ones 31).
  rewrite Z.land_ones by lia. apply Z.mod_small, Hn.
Qed.

Lemma digit_run_length (base : Z) (s : string) :
  (List.length (digit_run base s) <= String.length s)%nat.
Proof.
  induction s as [|c s IH]; cbn [digit_run List.length String.length].
  - lia.
  - destruct (digit_value c); [destruct (_ <? _)|]; cbn [List.length]; lia.
Qed.

Lemma advance_length (n : nat) (s : string) :
  (String.length (advance n s) <= String.length s)%nat.
Proof.
  revert s; induction n as [|n IH]; intros [|c s]; cbn [advance String.length];
    try lia.
  specialize (IH s). lia.
Qed.

Lemma fixup_radix_length (s : string) (base : Z) :
  (String.length (fst (_parse_integer_fixup_radix s base)) <= String.length s)%nat.
Proof.
  unfold _parse_integer_fixup_radix.
  destruct (_ && _ && _); cbn [fst]; [apply advance_length | lia].
Qed.

Lemma overflow_bit_clear (n : Z) :
  0 <= n < 2 ^ 31 -> Z.land n KSTRTOX_OVERFLOW = 0.
Proof.
  intros Hn.
  rewrite <- (Z.mod_small n (2 ^ 31)) by lia.
  rewrite <- Z.land_ones by lia.
  rewrite <- Z.land_assoc.
  change (Z.land (Z.ones 31) KSTRTOX_OVERFLOW) with 0.
  apply Z.land_0_r.
Qed.

Lemma skip_newline_code (s : string) :
  (if s.[0] =? `"010" then advance 1 s else s) = skip_newline s.
Proof.
  destruct s as [|c s]; [reflexivity|].
  unfold at_; cbn [String.get advance skip_newline].
  destruct (code c =? `"010") eqn:E.
  - apply Z.eqb_eq, code_inj in E; subst; reflexivity.
  - destruct c as [[|] [|] [|] [|] [|] [|] [|] [|]]; try reflexivity.
    discriminate E.
Qed.

Lemma strip_plus_code (s : string) :
  (if s.[0] =? `"+" then advance 1 s else s) = strip_plus s.
Proof.
  destruct s as [|c s]; [reflexivity|].
  unfold at_; cbn [String.get advance strip_plus].
  destruct (code c =? `"+") eqn:E.
  - apply Z.eqb_eq, code_inj in E; subst; reflexivity.
  - destruct c as [[|] [|] [|] [|] [|] [|] [|] [|]]; try reflexivity.
    discriminate E.
Qed.

Lemma _kstrtoull_spec (s : string) (base res : Z) :
  Z.of_nat (String.length s) < 2 ^ 31 ->
  _kstrtoull s base res =
  scan_outcome (snd (_parse_integer_fixup_radix s base))
               (fst (_parse_integer_fixup_radix s base)) res.
Proof.
  intros Hlen. unfold _kstrtoull, scan_outcome.
  pose proof (fixup_radix_length s base) as Hfix.
  destruct (_parse_integer_fixup_radix s base) as [s2 b]; cbn [fst snd] in *.
  rewrite _parse_integer_spec.
  pose proof (digit_run_length b s2) as Hrun.
  set (run := digit_run b s2) in *.
  rewrite Z.mod_small by lia.
  rewrite overflow_bit_clear by lia. cbn [Z.eqb negb].
  rewrite Nat2Z.id, skip_newline_code.
  destruct run as [|d run]; [reflexivity|].
  cbn [List.length]. rewrite Nat2Z.inj_succ.
  replace (Z.succ _ =? 0) with false by (symmetry; apply Z.eqb_neq; lia).
  destruct (_ =? 0); reflexivity.
Qed.

Lemma strip_plus_length (s : string) :
  (String.length (strip_plus s) <= String.length s)%nat.
Proof.
  rewrite <- strip_plus_code. destruct (_ =? _); [apply advance_length | lia].
Qed.

Lemma kstrtoull_spec (s : string) (base res : Z) :
  Z.of_nat (String.length s) < 2 ^ 31 ->
  kstrtoull s base res =
  scan_outcome (snd (_parse_integer_fixup_radix (strip_plus s) base))
               (fst (_parse_integer_fixup_radix (strip_plus s) base)) res.
Proof.
  intros Hlen. unfold kstrtoull. rewrite strip_plus_code.
  apply _kstrtoull_spec.
  pose proof (strip_plus_length s). lia.
Qed.

(** X1. On an input shorter than 2^31 characters, whatever the base, the
    count the accumulator returns (its return value without the overflow
    bit) is the length of the maximal leading run of digits valid in the
    base, and the stored total is the value of that run modulo 2^64. *)
Theorem parse_integer_count_and_value (s : string) (base : Z) :
  Z.of_nat (String.length s) < 2 ^ 31 ->
  Z.land (fst (_parse_integer s base)) (KSTRTOX_OVERFLOW - 1)
  = Z.of_nat (List.length (digit_run base s))
  /\ snd (_parse_integer s base) = exact_value base (digit_run base s) mod 2 ^ 64.
Proof.
  intros Hlen. rewrite _parse_integer_spec; cbn [fst snd].
  pose proof (digit_run_length base s) as Hrun.
  rewrite Z.mod_small by lia.
  split; [apply low_bits_small; lia | reflexivity].
Qed.

Lemma parse_integer_count_and_value_witness :
  Z.of_nat (String.length "7fZ") < 2 ^ 31
  /\ Z.land (fst (_parse_integer "7fZ" 16)) (KSTRTOX_OVERFLOW - 1)
     = Z.of_nat (List.length (digit_run 16 "7fZ"))
  /\ snd (_parse_integer "7fZ" 16) = exact_value 16 (digit_run 16 "7fZ") mod 2 ^ 64.
Proof.
  assert (H : Z.of_nat (String.length "7fZ") < 2 ^ 31) by (vm_compute; reflexivity).
  split; [exact H|].
  exact (parse_integer_count_and_value "7fZ" 16 H).
Defined.

(** ** Return codes and the result slot of the 64-bit parsers *)

Lemma _parse_integer_value_range (s : string) (base : Z) :
  0 <= snd (_parse_integer s base) < 2 ^ 64.
Proof.
  rewrite _parse_integer_spec; cbn [snd]. apply Z.mod_pos_bound. lia.
Qed.

Lemma _kstrtoull_outcome (s : string) (base res : Z) :
  (fst (_kstrtoull s base res) = 0 /\ 0 <= snd (_kstrtoull s base res) < 2 ^ 64)
  \/ ((fst (_kstrtoull s base res) = - EINVAL
       \/ fst (_kstrtoull s base res) = - ERANGE)
      /\ snd (_kstrtoull s base res) = res).
Proof.
  unfold _kstrtoull.
  destruct (_parse_integer_fixup_radix s base) as [s2 b].
  pose proof (_parse_integer_value_range s2 b) as Hv.
  destruct (_parse_integer s2 b) as [rv v]; cbn [snd] in Hv.
  destruct (negb _); [right; cbn; auto|].
  destruct (rv =? 0); [right; cbn; auto|].
  destruct (negb _); [right; cbn; auto|].
  left; cbn [fst snd]; auto.
Qed.

Lemma kstrtoull_outcome (s : string) (base res : Z) :
  (fst (kstrtoull s base res) = 0 /\ 0 <= snd (kstrtoull s base res) < 2 ^ 64)
  \/ ((fst (kstrtoull s base res) = - EINVAL
       \/ fst (kstrtoull s base res) = - ERANGE)
      /\ snd (kstrtoull s base res) = res).
Proof. unfold kstrtoull. apply _kstrtoull_outcome. Qed.

Lemma cast_signed_64_low (v : Z) : 0 <= v < 2 ^ 63 -> cast_signed 64 v = v.
Proof.
  intros Hv. unfold cast_signed. change (64 - 1) with 63.
  rewrite Z.mod_small by lia. lia.
Qed.

Lemma cast_signed_64_high (v : Z) :
  2 ^ 63 <= v < 2 ^ 64 -> cast_signed 64 v = v - 2 ^ 64.
Proof.
  intros Hv. unfold cast_signed. change (64 - 1) with 63.
  replace (v + 2 ^ 63) with ((v - 2 ^ 63) + 1 * 2 ^ 64) by lia.
  rewrite Z.mod_add by lia.
  rewrite Z.mod_small by lia. lia.
Qed.

Lemma kstrtoll_plain (junk : Z) (s : string) (base res : Z) :
  s.[0] <> `"-" ->
  kstrtoll junk s base res =
  (if fst (kstrtoull s base junk) <? 0 then (fst (kstrtoull s base junk), res)
   else if 2 ^ 63 <=? snd (kstrtoull s base junk) then (- ERANGE, res)
   else (0, snd (kstrtoull s base junk))).
Proof.
  intros Hs. unfold kstrtoll.
  replace (s.[0] =? `"-") with false by (symmetry; apply Z.eqb_neq; exact Hs).
  destruct (kstrtoull_outcome s base junk) as [[Hrc Hv]|[Hrc Hv]];
    destruct (kstrtoull s base junk) as [rc v]; cbn [fst snd] in *.
  - subst rc. cbn [Z.ltb Z.compare].
    destruct (2 ^ 63 <=? v) eqn:E.
    + apply Z.leb_le in E. rewrite cast_signed_64_high by lia.
      replace (v - 2 ^ 64 <? 0) with true by (symmetry; apply Z.ltb_lt; lia).
      reflexivity.
    + apply Z.leb_gt in E. rewrite cast_signed_64_low by lia.
      replace (v <? 0) with false by (symmetry; apply Z.ltb_ge; lia).
      reflexivity.
  - destruct Hrc; subst rc; reflexivity.
Qed.

Lemma kstrtoll_minus (junk : Z) (t : string) (base res : Z) :
  kstrtoll junk (String "-" t) base res =
  (if fst (_kstrtoull t base junk) <? 0 then (fst (_kstrtoull t base junk), res)
   else if 2 ^ 63 <? snd (_kstrtoull t base junk) then (- ERANGE, res)
   else (0, - snd (_kstrtoull t base junk))).
Proof.
  unfold kstrtoll.
  change ((String "-" t).[0] =? `"-") with true.
  cbn [advance].
  destruct (_kstrtoull_outcome t base junk) as [[Hrc Hv]|[Hrc Hv]];
    destruct (_kstrtoull t base junk) as [rc v]; cbn [fst snd] in *.
  - subst rc. cbn [Z.ltb Z.compare].
    destruct (Z.eq_dec v 0) as [->|Hnz]; [reflexivity|].
    replace ((- v) mod 2 ^ 64) with (2 ^ 64 - v)
      by (rewrite <- (Z.mod_add (- v) 1) by lia; rewrite Z.mod_small; lia).
    destruct (2 ^ 63 <? v) eqn:E.
    + apply Z.ltb_lt in E. rewrite cast_signed_64_low by lia.
      replace (2 ^ 64 - v >? 0) with true
        by (symmetry; rewrite Z.gtb_ltb; apply Z.ltb_lt; lia).
      reflexivity.
    + apply Z.ltb_ge in E. rewrite cast_signed_64_high by lia.
      replace (2 ^ 64 - v - 2 ^ 64 >? 0) with false
        by (symmetry; rewrite Z.gtb_ltb; apply Z.ltb_ge; lia).
      f_equal. lia.
  - destruct Hrc; subst rc; reflexivity.
Qed.

(** ** The digit accumulator and the unsigned 64-bit parser at the edge of
    the 64-bit range *)

(** C1. The digits of 2^64 are all consumed and counted, the stored total
    is their value reduced modulo 2^64, yet the overflow flag stays clear
    although the exact value exceeds 2^64 - 1. *)
Theorem parse_integer_overflow_flag_missed :
  exact_value 10 (digit_run 10 "18446744073709551616") = 2 ^ 64
  /\ _parse_integer "18446744073709551616" 10 = (20, 0)
  /\ Z.land (fst (_parse_integer "18446744073709551616" 10)) KSTRTOX_OVERFLOW = 0.
Proof. repeat split; vm_compute; reflexivity. Qed.

(** C2. The decimal text of 2^64 - 1 parses to 2^64 - 1; the decimal text
    of 2^64 is accepted as well and yields 0, where RANGE is expected. *)
Theorem kstrtoull_accepts_value_past_max (res : Z) :
  kstrtoull "18446744073709551615" 10 res = (0, 2 ^ 64 - 1)
  /\ kstrtoull "18446744073709551616" 10 res = (0, 0).
Proof. split; vm_compute; reflexivity. Qed.

(** C3. The signed parser at the asymmetric boundary: the magnitude 2^63
    after a minus sign gives -2^63, the magnitude 2^63 + 1 fails with RANGE,
    and an input without a minus sign whose unsigned value exceeds 2^63 - 1
    fails with RANGE. *)
Theorem kstrtoll_signed_boundary (junk res : Z) :
  kstrtoll junk "-9223372036854775808" 10 res = (0, - 2 ^ 63)
  /\ kstrtoll junk "-9223372036854775809" 10 res = (- ERANGE, res)
  /\ (forall (s : string) (base v : Z),
        s.[0] <> `"-" ->
        kstrtoull s base junk = (0, v) ->
        2 ^ 63 - 1 < v ->
        kstrtoll junk s base res = (- ERANGE, res)).
Proof.
  split; [vm_compute; reflexivity|].
  split; [vm_compute; reflexivity|].
  intros s base v Hs Hparse Hv.
  rewrite kstrtoll_plain by exact Hs.
  rewrite Hparse; cbn [fst snd Z.ltb Z.compare].
  replace (2 ^ 63 <=? v) with true by (symmetry; apply Z.leb_le; lia).
  reflexivity.
Qed.

Lemma kstrtoll_signed_boundary_witness :
  "9223372036854775808".[0] <> `"-"
  /\ kstrtoull "9223372036854775808" 10 0 = (0, 2 ^ 63)
  /\ 2 ^ 63 - 1 < 2 ^ 63
  /\ kstrtoll 0 "9223372036854775808" 10 7 = (- ERANGE, 7).
Proof.
  assert (H0 : "9223372036854775808".[0] <> `"-") by (vm_compute; discriminate).
  assert (H1 : kstrtoull "9223372036854775808" 10 0 = (0, 2 ^ 63))
    by (vm_compute; reflexivity).
  assert (H2 : 2 ^ 63 - 1 < 2 ^ 63) by lia.
  split; [exact H0|]. split; [exact H1|]. split; [exact H2|].
  exact (proj2 (proj2 (kstrtoll_signed_boundary 0 7))
               "9223372036854775808" 10 (2 ^ 63) H0 H1 H2).
Defined.

(** ** The sign of the signed parser *)

Lemma _kstrtoull_rejects_plus (u : string) (base res : Z) :
  _kstrtoull (String "+" u) base res = (- EINVAL, res).
Proof.
  unfold _kstrtoull, _parse_integer_fixup_radix.
  change ((String "+" u).[0] =? `"0") with false.
  rewrite andb_false_r. cbn [andb].
  rewrite _parse_integer_spec. reflexivity.
Qed.

(** C4, as stated, fails: the remainder after the minus sign goes to the
    internal parser, which strips no plus sign. *)
Lemma kstrtoll_minus_plus_rejected :
  kstrtoll 0 "-+1" 10 0 = (- EINVAL, 0)
  /\ kstrtoull "+1" 10 0 = (0, 1)
  /\ fst (kstrtoll 0 "-+1" 10 0) <> 0.
Proof. repeat split; vm_compute; congruence. Qed.

(** C4, amended. For an input that starts with a minus sign, the signed
    parser hands the remainder to the internal unsigned parser
    [_kstrtoull], which strips no plus sign: its failure is returned
    unchanged, a magnitude of at most 2^63 is negated, a larger one fails
    with RANGE, and every input of the form "-+..." fails with INVALID. *)
Theorem kstrtoll_minus_uses_internal_parser (junk : Z) (t : string) (base res : Z) :
  (forall m, _kstrtoull t base junk = (0, m) -> m <= 2 ^ 63 ->
             kstrtoll junk (String "-" t) base res = (0, - m))
  /\ (forall m, _kstrtoull t base junk = (0, m) -> 2 ^ 63 < m ->
                kstrtoll junk (String "-" t) base res = (- ERANGE, res))
  /\ (forall rc m, _kstrtoull t base junk = (rc, m) -> rc <> 0 ->
                   kstrtoll junk (String "-" t) base res = (rc, res))
  /\ (forall u, kstrtoll junk (String "-" (String "+" u)) base res
                = (- EINVAL, res)).
Proof.
  repeat split.
  - intros m Hm Hle. rewrite kstrtoll_minus, Hm; cbn [fst snd Z.ltb Z.compare].
    replace (2 ^ 63 <? m) with false by (symmetry; apply Z.ltb_ge; lia).
    reflexivity.
  - intros m Hm Hlt. rewrite kstrtoll_minus, Hm; cbn [fst snd Z.ltb Z.compare].
    replace (2 ^ 63 <? m) with true by (symmetry; apply Z.ltb_lt; lia).
    reflexivity.
  - intros rc m Hm Hrc. rewrite kstrtoll_minus.
    destruct (_kstrtoull_outcome t base junk) as [[H0 _]|[H0 _]];
      rewrite Hm in *; cbn [fst snd] in *; [contradiction|].
    destruct H0; subst rc; reflexivity.
  - intros u. rewrite kstrtoll_minus, _kstrtoull_rejects_plus. reflexivity.
Qed.

Lemma kstrtoll_minus_uses_internal_parser_witness :
  _kstrtoull "42" 10 0 = (0, 42) /\ 42 <= 2 ^ 63
  /\ kstrtoll 0 "-42" 10 7 = (0, - 42).
Proof.
  assert (H1 : _kstrtoull "42" 10 0 = (0, 42)) by (vm_compute; reflexivity).
  assert (H2 : 42 <= 2 ^ 63) by lia.
  split; [exact H1|]. split; [exact H2|].
  exact (proj1 (kstrtoll_minus_uses_internal_parser 0 "42" 10 7) 42 H1 H2).
Defined.

(** ** Radix resolution *)

Lemma code_eqb (c d : ascii) : (code c =? code d) = (c =? d)%char.
Proof.
  destruct (Ascii.eqb_spec c d) as [->|Hne].
  - apply Z.eqb_refl.
  - apply Z.eqb_neq. intros H; apply Hne, code_inj, H.
Qed.

Lemma at_0_eqb (s : string) (d : ascii) :
  code d <> 0 -> (s.[0] =? code d) = match s with
                                     | String c _ => (c =? d)%char
                                     | EmptyString => false
                                     end.
Proof.
  intros Hd. destruct s as [|c t]; unfold at_; cbn [String.get].
  - apply Z.eqb_neq; congruence.
  - apply code_eqb.
Qed.

Lemma at_1_x (s : string) :
  (_tolower s.[1] =? `"x") = match s with
                             | String _ (String x _) => (x =? "x")%char || (x =? "X")%char
                             | _ => false
                             end.
Proof.
  destruct s as [|c [|x t]]; unfold at_; cbn [String.get]; try reflexivity.
  rewrite tolower_x, !code_eqb. reflexivity.
Qed.

Lemma at_2_xdigit (c x : ascii) (t : string) :
  isxdigit (String c (String x t)).[2] =
  match t with
  | String h _ => match digit_value h with Some _ => true | None => false end
  | EmptyString => false
  end.
Proof.
  destruct t as [|h t]; unfold at_; cbn [String.get]; [reflexivity|].
  apply isxdigit_table.
Qed.

Lemma fixup_radix_autodetect (s : string) :
  snd (_parse_integer_fixup_radix s 0) =
  if autodetect_hex s then 16 else if leading_zero s then 8 else 10.
Proof.
  unfold _parse_integer_fixup_radix; cbn [snd Z.eqb].
  rewrite at_0_eqb by discriminate. rewrite at_1_x.
  destruct s as [|c [|x t]]; cbn [autodetect_hex leading_zero]; try reflexivity.
  rewrite at_2_xdigit.
  destruct (c =? "0")%char, ((x =? "x")%char || (x =? "X")%char), t as [|h t];
      cbn [andb]; try reflexivity.
Qed.

Lemma fixup_radix_explicit (s : string) (base : Z) :
  base <> 0 -> snd (_parse_integer_fixup_radix s base) = base.
Proof.
  intros Hb. unfold _parse_integer_fixup_radix; cbn [snd].
  replace (base =? 0) with false by (symmetry; apply Z.eqb_neq; exact Hb).
  reflexivity.
Qed.

Lemma fixup_radix_skip (s : string) (base : Z) :
  fst (_parse_integer_fixup_radix s base) =
  if (snd (_parse_integer_fixup_radix s base) =? 16) && hex_prefixed s
  then advance 2 s else s.
Proof.
  unfold _parse_integer_fixup_radix; cbn [fst snd].
  rewrite <- andb_assoc.
  rewrite at_0_eqb by discriminate. rewrite at_1_x.
  assert (Hp : match s with String c _ => (c =? "0")%char | EmptyString => false end
               && match s with
                  | String _ (String x _) => (x =? "x")%char || (x =? "X")%char
                  | _ => false
                  end = hex_prefixed s).
  { destruct s as [|c [|x t]]; cbn [hex_prefixed]; try reflexivity.
    apply andb_false_r. }
  rewrite Hp. reflexivity.
Qed.

(** C5. With base 0, "0x"/"0X" followed by a hex digit selects base 16, any
    other leading "0" selects base 8 and anything else base 10; whenever the
    resulting base is 16, also when 16 was passed explicitly, a leading
    "0x"/"0X" is skipped; so with base 0, "0x1A" parses to 26, "017" to 15,
    "10" to 10 and "0" to 0. *)
Theorem radix_resolution :
  (forall x h t, x = "x"%char \/ x = "X"%char -> digit_value h <> None ->
                 _parse_integer_fixup_radix (String "0" (String x (String h t))) 0
                 = (String h t, 16))
  /\ (forall s, leading_zero s = true -> autodetect_hex s = false ->
                _parse_integer_fixup_radix s 0 = (s, 8))
  /\ (forall s, leading_zero s = false ->
                _parse_integer_fixup_radix s 0 = (s, 10))
  /\ (forall s base, snd (_parse_integer_fixup_radix s base) = 16 ->
                     hex_prefixed s = true ->
                     fst (_parse_integer_fixup_radix s base) = advance 2 s)
  /\ (forall x t, x = "x"%char \/ x = "X"%char ->
                  _parse_integer_fixup_radix (String "0" (String x t)) 16 = (t, 16))
  /\ (forall res, kstrtoull "0x1A" 0 res = (0, 26)
                  /\ kstrtoull "017" 0 res = (0, 15)
                  /\ kstrtoull "10" 0 res = (0, 10)
                  /\ kstrtoull "0" 0 res = (0, 0)).
Proof.
  split; [|split; [|split; [|split; [|split]]]].
  - intros x h t Hx Hh.
    rewrite (surjective_pairing (_parse_integer_fixup_radix _ 0)).
    rewrite fixup_radix_skip, fixup_radix_autodetect.
    cbn [autodetect_hex hex_prefixed].
    destruct Hx; subst x; (destruct (digit_value h); [reflexivity | contradiction]).
  - intros s Hz Hx.
    rewrite (surjective_pairing (_parse_integer_fixup_radix s 0)).
    rewrite fixup_radix_skip, fixup_radix_autodetect, Hx, Hz. reflexivity.
  - intros s Hz.
    assert (Hx : autodetect_hex s = false).
    { destruct s as [|c [|x [|h t]]]; cbn in *; try reflexivity.
      rewrite Hz; reflexivity. }
    rewrite (surjective_pairing (_parse_integer_fixup_radix s 0)).
    rewrite fixup_radix_skip, fixup_radix_autodetect, Hx, Hz. reflexivity.
  - intros s base Hb Hp. rewrite fixup_radix_skip, Hb, Hp. reflexivity.
  - intros x t Hx.
    rewrite (surjective_pairing (_parse_integer_fixup_radix _ 16)).
    rewrite fixup_radix_skip, fixup_radix_explicit by discriminate.
    destruct Hx; subst x; reflexivity.
  - intros res. repeat split; vm_compute; reflexivity.
Qed.

Lemma radix_resolution_witness :
  ("X"%char = "x"%char \/ "X"%char = "X"%char)
  /\ digit_value "f" <> None
  /\ _parse_integer_fixup_radix "0Xff" 0 = ("ff", 16).
Proof.
  assert (Hx : "X"%char = "x"%char \/ "X"%char = "X"%char) by (right; reflexivity).
  assert (Hh : digit_value "f" <> None) by discriminate.
  split; [exact Hx|]. split; [exact Hh|].
  exact (proj1 radix_resolution "X"%char "f"%char "f" Hx Hh).
Defined.

(** ** Invalid inputs of the unsigned parser *)

Lemma fixup_radix_no_zero (c : ascii) (t : string) (base : Z) :
  c <> "0"%char ->
  _parse_integer_fixup_radix (String c t) base =
  (String c t, if base =? 0 then 10 else base).
Proof.
  intros Hc. unfold _parse_integer_fixup_radix.
  rewrite at_0_eqb by discriminate.
  replace (c =? "0")%char with false by (symmetry; apply Ascii.eqb_neq, Hc).
  rewrite andb_false_r. reflexivity.
Qed.

Lemma _kstrtoull_no_digit (c : ascii) (t : string) (base res : Z) :
  c <> "0"%char ->
  digit_run (if base =? 0 then 10 else base) (String c t) = [] ->
  _kstrtoull (String c t) base res = (- EINVAL, res).
Proof.
  intros Hc Hrun. unfold _kstrtoull.
  rewrite fixup_radix_no_zero by exact Hc.
  rewrite _parse_integer_spec, Hrun. reflexivity.
Qed.

Lemma kstrtoull_non_digit (c : ascii) (t : string) (base res : Z) :
  digit_value c = None -> c <> "+"%char ->
  kstrtoull (String c t) base res = (- EINVAL, res).
Proof.
  intros Hd Hp. unfold kstrtoull. rewrite strip_plus_code.
  assert (Hs : strip_plus (String c t) = String c t).
  { destruct c as [[|] [|] [|] [|] [|] [|] [|] [|]]; try reflexivity.
    contradiction Hp; reflexivity. }
  rewrite Hs. apply _kstrtoull_no_digit.
  - intros ->. discriminate Hd.
  - cbn [digit_run]. rewrite Hd. reflexivity.
Qed.




(** ** Width-narrowing wrappers *)

Lemma cast_unsigned_range (w x : Z) : 0 <= w -> 0 <= cast_unsigned w x < 2 ^ w.
Proof. intros Hw. apply Z.mod_pos_bound. apply Z.pow_pos_nonneg; lia. Qed.

Lemma cast_signed_range (w x : Z) :
  0 < w -> - 2 ^ (w - 1) <= cast_signed w x < 2 ^ (w - 1).
Proof.
  intros Hw. unfold cast_signed.
  assert (H2 : 2 ^ w = 2 * 2 ^ (w - 1)).
  { replace w with (Z.succ (w - 1)) at 1 by lia. apply Z.pow_succ_r. lia. }
  assert (Hp : 0 < 2 ^ (w - 1)) by (apply Z.pow_pos_nonneg; lia).
  pose proof (Z.mod_pos_bound (x + 2 ^ (w - 1)) (2 ^ w)) as Hm. lia.
Qed.

Lemma cast_unsigned_fits (w x : Z) :
  0 <= w -> (cast_unsigned w x = x <-> 0 <= x < 2 ^ w).
Proof.
  intros Hw. split.
  - intros <-. apply cast_unsigned_range, Hw.
  - intros Hx. apply Z.mod_small, Hx.
Qed.

Lemma cast_signed_fits (w x : Z) :
  0 < w -> (cast_signed w x = x <-> - 2 ^ (w - 1) <= x < 2 ^ (w - 1)).
Proof.
  intros Hw. split.
  - intros <-. apply cast_signed_range, Hw.
  - intros Hx. unfold cast_signed.
    assert (H2 : 2 ^ w = 2 * 2 ^ (w - 1)).
    { replace w with (Z.succ (w - 1)) at 1 by lia. apply Z.pow_succ_r. lia. }
    rewrite Z.mod_small by lia. lia.
Qed.

Lemma widen_unsigned (w x : Z) :
  0 <= w <= 64 -> cast_unsigned 64 (cast_unsigned w x) = cast_unsigned w x.
Proof.
  intros Hw. apply cast_unsigned_fits; [lia|].
  pose proof (cast_unsigned_range w x (proj1 Hw)).
  assert (2 ^ w <= 2 ^ 64) by (apply Z.pow_le_mono_r; lia). lia.
Qed.

Lemma widen_signed (w x : Z) :
  0 < w <= 64 -> cast_signed 64 (cast_signed w x) = cast_signed w x.
Proof.
  intros Hw. apply cast_signed_fits; [lia|].
  pose proof (cast_signed_range w x (proj1 Hw)).
  assert (2 ^ (w - 1) <= 2 ^ (64 - 1)) by (apply Z.pow_le_mono_r; lia). lia.
Qed.

Lemma first_char_minus (s : string) :
  s.[0] = `"-" -> exists t, s = String "-" t.
Proof.
  destruct s as [|c t]; unfold at_; cbn [String.get]; intros H.
  - discriminate H.
  - apply code_inj in H; subst c. exists t; reflexivity.
Qed.

Lemma kstrtoll_outcome (junk : Z) (s : string) (base res : Z) :
  (fst (kstrtoll junk s base res) = 0
   /\ - 2 ^ 63 <= snd (kstrtoll junk s base res) < 2 ^ 63)
  \/ ((fst (kstrtoll junk s base res) = - EINVAL
       \/ fst (kstrtoll junk s base res) = - ERANGE)
      /\ snd (kstrtoll junk s base res) = res).
Proof.
  destruct (Z.eq_dec s.[0] `"-") as [Hm|Hm].
  - destruct (first_char_minus s Hm) as [t ->].
    rewrite kstrtoll_minus.
    destruct (_kstrtoull_outcome t base junk) as [[Hrc Hv]|[Hrc Hv]].
    + rewrite Hrc; cbn [Z.ltb Z.compare].
      destruct (2 ^ 63 <? snd (_kstrtoull t base junk)) eqn:E; cbn [fst snd].
      * right; auto.
      * apply Z.ltb_ge in E. left; split; [reflexivity | lia].
    + right. destruct Hrc as [Hrc|Hrc]; rewrite Hrc; cbn; auto.
  - rewrite kstrtoll_plain by exact Hm.
    destruct (kstrtoull_outcome s base junk) as [[Hrc Hv]|[Hrc Hv]].
    + rewrite Hrc; cbn [Z.ltb Z.compare].
      destruct (2 ^ 63 <=? snd (kstrtoull s base junk)) eqn:E; cbn [fst snd].
      * right; auto.
      * apply Z.leb_gt in E. left; split; [reflexivity | lia].
    + right. destruct Hrc as [Hrc|Hrc]; rewrite Hrc; cbn; auto.
Qed.

Lemma narrowing_wrapper_contract (cast widen : Z -> Z) (wide : Z * Z) (res : Z) :
  fst wide = 0 \/ fst wide = - EINVAL \/ fst wide = - ERANGE ->
  widen (cast (snd wide)) = cast (snd wide) ->
  narrowing_contract cast wide
    (let '(rv, tmp) := wide in
     if rv <? 0 then (rv, res)
     else if negb (tmp =? widen (cast tmp)) then (- ERANGE, res)
     else (0, cast tmp))
    res.
Proof.
  intros Hrc Hw. destruct wide as [rv tmp]; cbn [fst snd] in *.
  rewrite Hw. unfold narrowing_contract; cbn [fst snd].
  destruct Hrc as [->|[->| ->]]; cbn [Z.ltb Z.compare ERANGE EINVAL Z.opp].
  - destruct (Z.eqb_spec tmp (cast tmp)) as [E|E]; cbn [negb fst snd].
    + repeat split; auto; try congruence.
    + repeat split; try congruence; try discriminate.
      intros []; congruence.
  - repeat split; try discriminate; try reflexivity. intros []; discriminate.
  - repeat split; try discriminate; try reflexivity. intros []; discriminate.
Qed.

Lemma kstrtoull_codes (s : string) (base res : Z) :
  fst (kstrtoull s base res) = 0 \/ fst (kstrtoull s base res) = - EINVAL
  \/ fst (kstrtoull s base res) = - ERANGE.
Proof. destruct (kstrtoull_outcome s base res) as [[H _]|[[H|H] _]]; auto. Qed.

Lemma kstrtoll_codes (junk : Z) (s : string) (base res : Z) :
  fst (kstrtoll junk s base res) = 0 \/ fst (kstrtoll junk s base res) = - EINVAL
  \/ fst (kstrtoll junk s base res) = - ERANGE.
Proof. destruct (kstrtoll_outcome junk s base res) as [[H _]|[[H|H] _]]; auto. Qed.

Ltac split_and_wrapper :=
  match goal with
  | |- _ /\ _ => split
  | |- narrowing_contract (cast_unsigned _) _ _ _ =>
    apply (narrowing_wrapper_contract _ (cast_unsigned 64));
    [apply kstrtoull_codes | apply widen_unsigned; lia]
  | |- narrowing_contract (cast_signed _) _ _ _ =>
    apply (narrowing_wrapper_contract _ (cast_signed 64));
    [apply kstrtoll_codes | apply widen_signed; lia]
  end.

(** C7. Each wrapper succeeds exactly when the 64-bit parse succeeds and
    its result survives narrowing to the target type and widening back; on
    success the slot receives the narrowed value, on a failed round trip the
    wrapper fails with RANGE, and a failure of the 64-bit parse is passed
    on. *)
Theorem narrowing_wrappers_round_trip (junk L : Z) (s : string) (base res : Z) :
  L = 32 \/ L = 64 ->
  narrowing_contract (cast_unsigned 32) (kstrtoull s base junk)
                     (kstrtouint junk s base res) res
  /\ narrowing_contract (cast_signed 32) (kstrtoll junk s base junk)
                        (kstrtoint junk s base res) res
  /\ narrowing_contract (cast_unsigned 16) (kstrtoull s base junk)
                        (kstrtou16 junk s base res) res
  /\ narrowing_contract (cast_signed 16) (kstrtoll junk s base junk)
                        (kstrtos16 junk s base res) res
  /\ narrowing_contract (cast_unsigned 8) (kstrtoull s base junk)
                        (kstrtou8 junk s base res) res
  /\ narrowing_contract (cast_signed 8) (kstrtoll junk s base junk)
                        (kstrtos8 junk s base res) res
  /\ narrowing_contract (cast_unsigned L) (kstrtoull s base junk)
                        (_kstrtoul junk L s base res) res
  /\ narrowing_contract (cast_signed L) (kstrtoll junk s base junk)
                        (_kstrtol junk L s base res) res.
Proof.
  intros HL.
  assert (HL' : 0 < L <= 64) by (destruct HL; subst L; lia).
  repeat split_and_wrapper.
Qed.

Lemma narrowing_wrappers_round_trip_witness :
  (64 = 32 \/ 64 = 64)
  /\ narrowing_contract (cast_unsigned 32) (kstrtoull "4294967296" 10 0)
                        (kstrtouint 0 "4294967296" 10 7) 7.
Proof.
  assert (H : 64 = 32 \/ 64 = 64) by (right; reflexivity).
  split; [exact H|].
  exact (proj1 (narrowing_wrappers_round_trip 0 64 "4294967296" 10 7 H)).
Defined.

Example narrowing_examples (junk res : Z) :
  kstrtos8 junk "-128" 10 res = (0, -128)
  /\ kstrtos8 junk "-129" 10 res = (- ERANGE, res)
  /\ kstrtos8 junk "127" 10 res = (0, 127)
  /\ kstrtos8 junk "128" 10 res = (- ERANGE, res)
  /\ kstrtou8 junk "255" 10 res = (0, 255)
  /\ kstrtou8 junk "256" 10 res = (- ERANGE, res)
  /\ kstrtouint junk "4294967295" 10 res = (0, 4294967295)
  /\ kstrtouint junk "4294967296" 10 res = (- ERANGE, res)
  /\ kstrtoint junk "-2147483648" 10 res = (0, -2147483648)
  /\ kstrtoint junk "-2147483649" 10 res = (- ERANGE, res)
  /\ kstrtos16 junk "x" 10 res = (- EINVAL, res).
Proof. repeat split; vm_compute; reflexivity. Qed.

(** ** The uninitialised locals

    No outcome depends on what a local [tmp] held before the 64-bit parse
    wrote it. *)

Lemma discipline_same_parse (f : Z -> Z * Z) (r1 r2 : Z) :
  slot_discipline f -> same_parse (f r1) (f r2).
Proof.
  intros (rc & v & _ & Hf). unfold same_parse. rewrite !Hf.
  destruct (rc =? 0) eqn:E; cbn [fst snd]; [split; reflexivity|].
  split; [reflexivity|]. intros ->. discriminate E.
Qed.

Lemma _kstrtoull_discipline (s : string) (base : Z) :
  slot_discipline (_kstrtoull s base).
Proof.
  unfold slot_discipline, _kstrtoull.
  destruct (_parse_integer_fixup_radix s base) as [s2 b].
  destruct (_parse_integer s2 b) as [rv v].
  destruct (negb _); [exists (- ERANGE), 0; split; [auto | reflexivity]|].
  destruct (rv =? 0); [exists (- EINVAL), 0; split; [auto | reflexivity]|].
  destruct (negb _); [exists (- EINVAL), 0; split; [auto | reflexivity]|].
  exists 0, v; split; [auto | reflexivity].
Qed.

Lemma kstrtoull_discipline (s : string) (base : Z) :
  slot_discipline (kstrtoull s base).
Proof. unfold kstrtoull. apply _kstrtoull_discipline. Qed.

Lemma after_same_parse {A : Type} (w1 w2 : Z * Z) (e k : Z -> A) :
  same_parse w1 w2 ->
  fst w1 = 0 \/ fst w1 = - EINVAL \/ fst w1 = - ERANGE ->
  (let '(rv, tmp) := w1 in if rv <? 0 then e rv else k tmp)
  = (let '(rv, tmp) := w2 in if rv <? 0 then e rv else k tmp).
Proof.
  destruct w1 as [rv1 t1], w2 as [rv2 t2]; unfold same_parse; cbn [fst snd].
  intros [<- Hv] [->|[->| ->]]; try reflexivity.
  rewrite Hv by reflexivity. reflexivity.
Qed.

Lemma kstrtoll_indeterminate (j1 j2 : Z) (s : string) (base res : Z) :
  kstrtoll j1 s base res = kstrtoll j2 s base res.
Proof.
  unfold kstrtoll. destruct (s.[0] =? `"-").
  - apply (after_same_parse _ _ (fun rv => (rv, res))
             (fun tmp => if cast_signed 64 ((- tmp) mod 2 ^ 64) >? 0
                         then (- ERANGE, res)
                         else (0, cast_signed 64 ((- tmp) mod 2 ^ 64)))).
    + apply discipline_same_parse, _kstrtoull_discipline.
    + destruct (_kstrtoull_outcome (advance 1 s) base j1) as [[H _]|[[H|H] _]]; auto.
  - apply (after_same_parse _ _ (fun rv => (rv, res))
             (fun tmp => if cast_signed 64 tmp <? 0
                         then (- ERANGE, res)
                         else (0, cast_signed 64 tmp))).
    + apply discipline_same_parse, kstrtoull_discipline.
    + apply kstrtoull_codes.
Qed.

Lemma kstrtoll_discipline (junk : Z) (s : string) (base : Z) :
  slot_discipline (kstrtoll junk s base).
Proof.
  unfold slot_discipline.
  destruct (Z.eq_dec s.[0] `"-") as [Hm|Hm].
  - destruct (first_char_minus s Hm) as [t ->].
    destruct (_kstrtoull_outcome t base junk) as [[Hrc Hv]|[Hrc Hv]].
    + destruct (2 ^ 63 <? snd (_kstrtoull t base junk)) eqn:E.
      * exists (- ERANGE), 0. split; [auto|]. intros res.
        rewrite kstrtoll_minus, Hrc, E. reflexivity.
      * exists 0, (- snd (_kstrtoull t base junk)). split; [auto|]. intros res.
        rewrite kstrtoll_minus, Hrc, E. reflexivity.
    + exists (fst (_kstrtoull t base junk)), 0. split; [tauto|]. intros res.
      rewrite kstrtoll_minus.
      destruct Hrc as [Hrc|Hrc]; rewrite Hrc; reflexivity.
  - destruct (kstrtoull_outcome s base junk) as [[Hrc Hv]|[Hrc Hv]].
    + destruct (2 ^ 63 <=? snd (kstrtoull s base junk)) eqn:E.
      * exists (- ERANGE), 0. split; [auto|]. intros res.
        rewrite kstrtoll_plain, Hrc, E by exact Hm. reflexivity.
      * exists 0, (snd (kstrtoull s base junk)). split; [auto|]. intros res.
        rewrite kstrtoll_plain, Hrc, E by exact Hm. reflexivity.
    + exists (fst (kstrtoull s base junk)), 0. split; [tauto|]. intros res.
      rewrite kstrtoll_plain by exact Hm.
      destruct Hrc as [Hrc|Hrc]; rewrite Hrc; reflexivity.
Qed.

Ltac wrapper_indeterminate :=
  match goal with
  | |- _ /\ _ => split
  | |- ?f _ _ _ _ = _ => unfold f
  | |- ?f _ _ _ _ _ = _ => unfold f
  | |- context [kstrtoll ?j1 ?s ?b ?j1] =>
    rewrite (kstrtoll_indeterminate j1 0 s b j1)
  | |- (let '(_, _) := kstrtoll 0 ?s ?b ?j1 in _)
       = (let '(_, _) := kstrtoll 0 ?s ?b ?j2 in _) =>
    apply (after_same_parse (kstrtoll 0 s b j1) (kstrtoll 0 s b j2)
                            (fun rv => (rv, _)) (fun tmp => _));
    [apply discipline_same_parse, kstrtoll_discipline | apply kstrtoll_codes]
  | |- (let '(_, _) := kstrtoull ?s ?b ?j1 in _)
       = (let '(_, _) := kstrtoull ?s ?b ?j2 in _) =>
    apply (after_same_parse (kstrtoull s b j1) (kstrtoull s b j2)
                            (fun rv => (rv, _)) (fun tmp => _));
    [apply discipline_same_parse, kstrtoull_discipline | apply kstrtoull_codes]
  end.

Lemma wrappers_indeterminate (j1 j2 L : Z) (s : string) (base res : Z) :
  _kstrtoul j1 L s base res = _kstrtoul j2 L s base res
  /\ _kstrtol j1 L s base res = _kstrtol j2 L s base res
  /\ kstrtouint j1 s base res = kstrtouint j2 s base res
  /\ kstrtoint j1 s base res = kstrtoint j2 s base res
  /\ kstrtou16 j1 s base res = kstrtou16 j2 s base res
  /\ kstrtos16 j1 s base res = kstrtos16 j2 s base res
  /\ kstrtou8 j1 s base res = kstrtou8 j2 s base res
  /\ kstrtos8 j1 s base res = kstrtos8 j2 s base res.
Proof.
  repeat wrapper_indeterminate.
Qed.

(** ** The result slot on the error paths *)

Lemma wrapper_frame (cast widen : Z -> Z) (wide : Z * Z) (res : Z) :
  let out := (let '(rv, tmp) := wide in
              if rv <? 0 then (rv, res)
              else if negb (tmp =? widen (cast tmp)) then (- ERANGE, res)
              else (0, cast tmp)) in
  fst out <> 0 -> snd out = res.
Proof.
  destruct wide as [rv tmp]; cbn zeta.
  destruct (rv <? 0); [reflexivity|].
  destruct (negb _); [reflexivity|].
  cbn [fst]. congruence.
Qed.

Lemma kstrtobool_frame (s : option string) (res : bool) :
  fst (kstrtobool s res) <> 0 -> snd (kstrtobool s res) = res.
Proof.
  unfold kstrtobool. destruct s as [s|]; [|reflexivity].
  repeat match goal with
         | |- context [if ?b then _ else _] => destruct b
         end; cbn [fst snd]; congruence.
Qed.

(** C8. Every parser of the family leaves the result slot as it was
    whenever it returns an error. *)
Theorem result_slot_untouched_on_error
        (junk L : Z) (s : string) (base res : Z) (b : option string) (rb : bool) :
  (fst (_kstrtoull s base res) <> 0 -> snd (_kstrtoull s base res) = res)
  /\ (fst (kstrtoull s base res) <> 0 -> snd (kstrtoull s base res) = res)
  /\ (fst (kstrtoll junk s base res) <> 0 -> snd (kstrtoll junk s base res) = res)
  /\ (fst (_kstrtoul junk L s base res) <> 0 ->
      snd (_kstrtoul junk L s base res) = res)
  /\ (fst (_kstrtol junk L s base res) <> 0 ->
      snd (_kstrtol junk L s base res) = res)
  /\ (fst (kstrtouint junk s base res) <> 0 ->
      snd (kstrtouint junk s base res) = res)
  /\ (fst (kstrtoint junk s base res) <> 0 ->
      snd (kstrtoint junk s base res) = res)
  /\ (fst (kstrtou16 junk s base res) <> 0 ->
      snd (kstrtou16 junk s base res) = res)
  /\ (fst (kstrtos16 junk s base res) <> 0 ->
      snd (kstrtos16 junk s base res) = res)
  /\ (fst (kstrtou8 junk s base res) <> 0 ->
      snd (kstrtou8 junk s base res) = res)
  /\ (fst (kstrtos8 junk s base res) <> 0 ->
      snd (kstrtos8 junk s base res) = res)
  /\ (fst (kstrtobool b rb) <> 0 -> snd (kstrtobool b rb) = rb).
Proof.
  split.
  { destruct (_kstrtoull_outcome s base res) as [[H _]|[_ H]]; [contradiction | auto]. }
  split.
  { destruct (kstrtoull_outcome s base res) as [[H _]|[_ H]]; [contradiction | auto]. }
  split.
  { destruct (kstrtoll_outcome junk s base res) as [[H _]|[_ H]]; [contradiction | auto]. }
  repeat split; try apply wrapper_frame.
  apply kstrtobool_frame.
Qed.

Lemma result_slot_untouched_on_error_witness :
  fst (kstrtos8 0 "128" 10 7) <> 0 /\ snd (kstrtos8 0 "128" 10 7) = 7.
Proof.
  assert (H : fst (kstrtos8 0 "128" 10 7) <> 0) by (vm_compute; discriminate).
  split; [exact H|].
  exact (proj1 (proj2 (proj2 (proj2 (proj2 (proj2 (proj2 (proj2 (proj2 (proj2
           (proj2 (result_slot_untouched_on_error 0 64 "128" 10 7 None false)))))))))))
         H).
Defined.

(** ** Boolean parser *)

Lemma kstrtobool_table (s : string) (res : bool) :
  kstrtobool (Some s) res =
  match bool_token s with
  | Some b => (0, b)
  | None => (- EINVAL, res)
  end.
Proof.
  destruct s as [|c s]; [reflexivity|].
  destruct c as [[|] [|] [|] [|] [|] [|] [|] [|]]; try reflexivity;
    (destruct s as [|d s]; [reflexivity|]);
    destruct d as [[|] [|] [|] [|] [|] [|] [|] [|]]; reflexivity.
Qed.

(** C9. The boolean tokens: "y", "Y", "1" give true; "n", "N", "0" give
    false; "o"/"O" followed by "n"/"N" gives true and by "f"/"F" false;
    anything else, the empty string included, is INVALID; nothing beyond
    the first two characters is looked at. *)
Theorem kstrtobool_tokens (res : bool) :
  (forall c t, c = "y"%char \/ c = "Y"%char \/ c = "1"%char ->
               kstrtobool (Some (String c t)) res = (0, true))
  /\ (forall c t, c = "n"%char \/ c = "N"%char \/ c = "0"%char ->
                  kstrtobool (Some (String c t)) res = (0, false))
  /\ (forall c d t, c = "o"%char \/ c = "O"%char ->
                    d = "n"%char \/ d = "N"%char ->
                    kstrtobool (Some (String c (String d t))) res = (0, true))
  /\ (forall c d t, c = "o"%char \/ c = "O"%char ->
                    d = "f"%char \/ d = "F"%char ->
                    kstrtobool (Some (String c (String d t))) res = (0, false))
  /\ (forall s, bool_token s = None ->
                kstrtobool (Some s) res = (- EINVAL, res))
  /\ kstrtobool (Some "") res = (- EINVAL, res)
  /\ kstrtobool None res = (- EINVAL, res)
  /\ (forall c d t u,
         kstrtobool (Some (String c (String d t))) res
         = kstrtobool (Some (String c (String d u))) res)
  /\ (forall c t u, c <> "o"%char -> c <> "O"%char ->
         kstrtobool (Some (String c t)) res = kstrtobool (Some (String c u)) res)
  /\ kstrtobool (Some "On") res = (0, true)
  /\ kstrtobool (Some "OFF") res = (0, false)
  /\ kstrtobool (Some "Y") res = (0, true)
  /\ kstrtobool (Some "0") res = (0, false)
  /\ kstrtobool (Some "x") res = (- EINVAL, res).
Proof.
  split; [|split; [|split; [|split; [|split; [|split; [|split; [|split; [|split]]]]]]]].
  - intros c t [->|[->| ->]]; reflexivity.
  - intros c t [->|[->| ->]]; reflexivity.
  - intros c d t [->| ->] [->| ->]; reflexivity.
  - intros c d t [->| ->] [->| ->]; reflexivity.
  - intros s H. rewrite kstrtobool_table, H. reflexivity.
  - reflexivity.
  - reflexivity.
  - intros c d t u. reflexivity.
  - intros c t u Ho HO. rewrite !kstrtobool_table.
    destruct c as [[|] [|] [|] [|] [|] [|] [|] [|]]; try reflexivity;
      congruence.
  - repeat split; reflexivity.
Qed.

Lemma kstrtobool_tokens_witness :
  ("y"%char = "y"%char \/ "y"%char = "Y"%char \/ "y"%char = "1"%char)
  /\ kstrtobool (Some "yes") false = (0, true).
Proof.
  assert (H : "y"%char = "y"%char \/ "y"%char = "Y"%char \/ "y"%char = "1"%char)
    by (left; reflexivity).
  split; [exact H|].
  exact (proj1 (kstrtobool_tokens false) "y"%char "es" H).
Defined.

(** ** Bases outside the documented range *)

Lemma all_valid_digits_run (base : Z) (s : string) :
  all_valid_digits base s = true ->
  List.length (digit_run base s) = String.length s.
Proof.
  induction s as [|c s IH]; cbn [all_valid_digits digit_run String.length];
    [reflexivity|].
  destruct (digit_value c) as [v|]; [|discriminate].
  destruct (v <? base); [|discriminate].
  cbn [andb List.length]. intros H. rewrite IH by exact H. reflexivity.
Qed.

Lemma advance_all (s : string) : advance (String.length s) s = EmptyString.
Proof. induction s as [|c s IH]; cbn [String.length advance]; auto. Qed.

Lemma digit_run_nonneg (base : Z) (s : string) :
  Forall (fun d => 0 <= d) (digit_run base s).
Proof.
  induction s as [|c s IH]; cbn [digit_run]; [constructor|].
  destruct (digit_value c) as [v|] eqn:Hv; [|constructor].
  destruct (v <? base); constructor; [|exact IH].
  apply (digit_value_range c v Hv).
Qed.

Lemma horner_nonneg (base acc : Z) (ds : list Z) :
  0 <= base -> 0 <= acc -> Forall (fun d => 0 <= d) ds -> 0 <= horner base acc ds.
Proof.
  intros Hb Hacc Hds. revert acc Hacc.
  induction Hds as [|d ds Hd _ IH]; intros acc Hacc; cbn [horner fold_left].
  - exact Hacc.
  - apply IH. nia.
Qed.

Lemma fixup_radix_other_base (s : string) (base : Z) :
  base <> 0 -> base <> 16 -> _parse_integer_fixup_radix s base = (s, base).
Proof.
  intros H0 H16. unfold _parse_integer_fixup_radix.
  replace (base =? 0) with false by (symmetry; apply Z.eqb_neq; exact H0).
  replace (base =? 16) with false by (symmetry; apply Z.eqb_neq; exact H16).
  reflexivity.
Qed.

(** C10. A base outside {0, 2..16} is taken as given: the radix resolver
    leaves the string and the base alone, and a non-empty string of digits
    below the base parses to its place value in that base; so "0" in base 1
    gives 0 and "10" in base 17 gives 17. *)
Theorem base_not_validated :
  (forall s base, base = 1 \/ 17 <= base ->
                  _parse_integer_fixup_radix s base = (s, base))
  /\ (forall s base res,
         base = 1 \/ 17 <= base -> base < 2 ^ 32 ->
         s <> EmptyString ->
         all_valid_digits base s = true ->
         Z.of_nat (String.length s) < 2 ^ 31 ->
         exact_value base (digit_run base s) <= ULLONG_MAX ->
         List.length (digit_run base s) = String.length s
         /\ kstrtoull s base res = (0, exact_value base (digit_run base s)))
  /\ (forall res, kstrtoull "0" 1 res = (0, 0)
                  /\ kstrtoull "10" 17 res = (0, 17)).
Proof.
  split; [|split].
  - intros s base Hb. apply fixup_radix_other_base; lia.
  - intros s base res Hb _ Hne Hall Hlen Hfit.
    pose proof (all_valid_digits_run base s Hall) as Hrun.
    split; [exact Hrun|].
    assert (Hplus : strip_plus s = s).
    { destruct s as [|c t]; [reflexivity|]. cbn [all_valid_digits] in Hall.
      destruct c as [[|] [|] [|] [|] [|] [|] [|] [|]]; try reflexivity.
      discriminate Hall. }
    rewrite kstrtoull_spec by exact Hlen.
    rewrite Hplus, fixup_radix_other_base by lia. cbn [fst snd].
    unfold scan_outcome. rewrite Hrun, advance_all.
    destruct (digit_run base s) as [|d run] eqn:Erun.
    + destruct s; [contradiction | discriminate Hrun].
    + change ((skip_newline "").[0] =? 0) with true. cbv iota.
      f_equal. apply Z.mod_small. split.
      * apply horner_nonneg; [lia | lia |]. rewrite <- Erun. apply digit_run_nonneg.
      * unfold ULLONG_MAX in Hfit. lia.
  - intros res. split; vm_compute; reflexivity.
Qed.

Lemma base_not_validated_witness :
  (20 = 1 \/ 17 <= 20) /\ 20 < 2 ^ 32
  /\ "fe" <> EmptyString
  /\ all_valid_digits 20 "fe" = true
  /\ Z.of_nat (String.length "fe") < 2 ^ 31
  /\ exact_value 20 (digit_run 20 "fe") <= ULLONG_MAX
  /\ List.length (digit_run 20 "fe") = String.length "fe"
  /\ kstrtoull "fe" 20 0 = (0, exact_value 20 (digit_run 20 "fe")).
Proof.
  assert (H1 : 20 = 1 \/ 17 <= 20) by (right; lia).
  assert (H2 : 20 < 2 ^ 32) by lia.
  assert (H3 : "fe" <> EmptyString) by discriminate.
  assert (H4 : all_valid_digits 20 "fe" = true) by reflexivity.
  assert (H5 : Z.of_nat (String.length "fe") < 2 ^ 31) by (vm_compute; reflexivity).
  assert (H6 : exact_value 20 (digit_run 20 "fe") <= ULLONG_MAX)
    by (vm_compute; discriminate).
  split; [exact H1|]. split; [exact H2|]. split; [exact H3|].
  split; [exact H4|]. split; [exact H5|]. split; [exact H6|].
  exact (proj1 (proj2 base_not_validated) "fe" 20 0 H1 H2 H3 H4 H5 H6).
Defined.

(** ** Strings of digits *)

Lemma digit_run_app (base : Z) (ds t : string) :
  all_valid_digits base ds = true ->
  digit_run base (ds ++ t) = (digit_run base ds ++ digit_run base t)%list.
Proof.
  induction ds as [|c ds IH]; cbn [all_valid_digits digit_run append];
    [reflexivity|].
  destruct (digit_value c) as [v|]; [|discriminate].
  destruct (v <? base); [|discriminate].
  cbn [andb]. intros H. rewrite IH by exact H. reflexivity.
Qed.

Lemma advance_app (ds t : string) : advance (String.length ds) (ds ++ t) = t.
Proof. induction ds as [|c ds IH]; cbn [String.length advance append]; auto. Qed.

Lemma length_app (s t : string) :
  String.length (s ++ t) = (String.length s + String.length t)%nat.
Proof. induction s as [|c s IH]; cbn [String.length append]; lia. Qed.

Lemma line_end_cases (nl : string) :
  line_end nl = true -> nl = "" \/ nl = String "010" "".
Proof.
  destruct nl as [|c [|d t]]; cbn [line_end]; intros H; try discriminate; auto.
  right. apply Ascii.eqb_eq in H. subst c. reflexivity.
Qed.

Lemma digit_run_line_end (base : Z) (nl : string) :
  line_end nl = true -> digit_run base nl = [].
Proof. intros H. destruct (line_end_cases nl H) as [->| ->]; reflexivity. Qed.

Lemma skip_line_end (nl : string) :
  line_end nl = true -> skip_newline nl = "".
Proof. intros H. destruct (line_end_cases nl H) as [->| ->]; reflexivity. Qed.

Lemma digit_run_nonempty (base : Z) (ds : string) :
  ds <> "" -> all_valid_digits base ds = true -> digit_run base ds <> [].
Proof.
  destruct ds as [|c ds]; [contradiction|]. intros _.
  cbn [all_valid_digits digit_run].
  destruct (digit_value c) as [v|]; [|discriminate].
  destruct (v <? base); discriminate.
Qed.

Lemma scan_outcome_digits (base : Z) (ds nl : string) (res : Z) :
  ds <> "" -> all_valid_digits base ds = true -> line_end nl = true ->
  scan_outcome base (ds ++ nl) res
  = (0, exact_value base (digit_run base ds) mod 2 ^ 64).
Proof.
  intros Hne Hall Hnl. unfold scan_outcome.
  rewrite digit_run_app, (digit_run_line_end base nl Hnl), app_nil_r by exact Hall.
  rewrite (all_valid_digits_run base ds Hall), advance_app, skip_line_end by exact Hnl.
  pose proof (digit_run_nonempty base ds Hne Hall) as Hrun.
  destruct (digit_run base ds); [contradiction | reflexivity].
Qed.

Lemma digits_not_hex_prefixed (base : Z) (ds nl : string) :
  ds <> "" -> all_valid_digits base ds = true -> line_end nl = true ->
  hex_prefixed (ds ++ nl) = false.
Proof.
  intros Hne Hall Hnl.
  destruct ds as [|c [|d ds]]; [contradiction| |].
  - destruct (line_end_cases nl Hnl) as [->| ->]; cbn [append hex_prefixed];
      [reflexivity|]. apply andb_false_r.
  - cbn [append hex_prefixed]. cbn [all_valid_digits] in Hall.
    destruct (digit_value c); [|discriminate].
    apply andb_prop in Hall. destruct Hall as [_ Hall].
    destruct d as [[|] [|] [|] [|] [|] [|] [|] [|]];
      try apply andb_false_r; discriminate Hall.
Qed.

Lemma digits_no_plus (base : Z) (ds t : string) :
  ds <> "" -> all_valid_digits base ds = true -> strip_plus (ds ++ t) = ds ++ t.
Proof.
  destruct ds as [|c ds]; [contradiction|]. intros _ Hall.
  cbn [all_valid_digits] in Hall. cbn [append].
  destruct c as [[|] [|] [|] [|] [|] [|] [|] [|]]; try reflexivity.
  discriminate Hall.
Qed.

Lemma exact_value_range (base : Z) (s : string) :
  0 <= base -> 0 <= exact_value base (digit_run base s).
Proof.
  intros Hb. apply horner_nonneg; [exact Hb | lia | apply digit_run_nonneg].
Qed.

(** [_kstrtoull] on digits of an explicit base, with the value wrapping. *)
Lemma _kstrtoull_digits (base : Z) (ds nl : string) (res : Z) :
  1 <= base -> ds <> "" -> all_valid_digits base ds = true ->
  line_end nl = true ->
  Z.of_nat (String.length (ds ++ nl)) < 2 ^ 31 ->
  _kstrtoull (ds ++ nl) base res
  = (0, exact_value base (digit_run base ds) mod 2 ^ 64).
Proof.
  intros Hb Hne Hall Hnl Hlen.
  rewrite _kstrtoull_spec by exact Hlen.
  assert (Hfix : _parse_integer_fixup_radix (ds ++ nl) base = (ds ++ nl, base)).
  { rewrite (surjective_pairing (_parse_integer_fixup_radix _ _)).
    rewrite fixup_radix_skip, fixup_radix_explicit by lia.
    rewrite (digits_not_hex_prefixed base ds nl Hne Hall Hnl), andb_false_r.
    reflexivity. }
  rewrite Hfix; cbn [fst snd].
  apply scan_outcome_digits; assumption.
Qed.

Lemma kstrtoull_plus (t : string) (base res : Z) :
  kstrtoull (String "+" t) base res = _kstrtoull t base res.
Proof. unfold kstrtoull. rewrite strip_plus_code. reflexivity. Qed.

Lemma kstrtoull_digits (base : Z) (ds nl : string) (res : Z) :
  1 <= base -> ds <> "" -> all_valid_digits base ds = true ->
  line_end nl = true ->
  Z.of_nat (String.length (ds ++ nl)) < 2 ^ 31 ->
  kstrtoull (ds ++ nl) base res
  = (0, exact_value base (digit_run base ds) mod 2 ^ 64).
Proof.
  intros Hb Hne Hall Hnl Hlen. unfold kstrtoull.
  rewrite strip_plus_code, (digits_no_plus base ds nl Hne Hall).
  apply _kstrtoull_digits; assumption.
Qed.

Lemma digits_first_char (base : Z) (ds t : string) (c : ascii) :
  ds <> "" -> all_valid_digits base ds = true -> digit_value c = None ->
  (ds ++ t).[0] <> code c.
Proof.
  destruct ds as [|d ds]; [contradiction|]. intros _ Hall Hc.
  cbn [all_valid_digits] in Hall. cbn [append]. unfold at_; cbn [String.get].
  intros E. apply code_inj in E. subst d. rewrite Hc in Hall. discriminate.
Qed.

(** X2. In an explicit base from 1 up, a non-empty string of digits below
    the base, whose value fits 64 bits, parses to that value, with or
    without one leading plus sign and one trailing newline. *)
Theorem kstrtoull_parses_digits (base : Z) (ds nl : string) (res : Z) :
  1 <= base -> ds <> "" -> all_valid_digits base ds = true ->
  line_end nl = true ->
  Z.of_nat (String.length (ds ++ nl)) < 2 ^ 31 ->
  exact_value base (digit_run base ds) <= ULLONG_MAX ->
  kstrtoull (ds ++ nl) base res = (0, exact_value base (digit_run base ds))
  /\ kstrtoull (String "+" (ds ++ nl)) base res
     = (0, exact_value base (digit_run base ds)).
Proof.
  intros Hb Hne Hall Hnl Hlen Hfit.
  assert (Hmod : exact_value base (digit_run base ds) mod 2 ^ 64
                 = exact_value base (digit_run base ds)).
  { apply Z.mod_small. pose proof (exact_value_range base ds).
    unfold ULLONG_MAX in Hfit. lia. }
  split.
  - rewrite kstrtoull_digits, Hmod by assumption. reflexivity.
  - rewrite kstrtoull_plus, _kstrtoull_digits, Hmod by assumption. reflexivity.
Qed.

Lemma kstrtoull_parses_digits_witness :
  1 <= 12 /\ "b0a" <> "" /\ all_valid_digits 12 "b0a" = true
  /\ line_end (String "010" "") = true
  /\ Z.of_nat (String.length ("b0a" ++ String "010" "")) < 2 ^ 31
  /\ exact_value 12 (digit_run 12 "b0a") <= ULLONG_MAX
  /\ kstrtoull ("b0a" ++ String "010" "") 12 0 = (0, exact_value 12 (digit_run 12 "b0a"))
  /\ kstrtoull (String "+" ("b0a" ++ String "010" "")) 12 0
     = (0, exact_value 12 (digit_run 12 "b0a")).
Proof.
  assert (H1 : 1 <= 12) by lia.
  assert (H2 : "b0a" <> "") by discriminate.
  assert (H3 : all_valid_digits 12 "b0a" = true) by reflexivity.
  assert (H4 : line_end (String "010" "") = true) by reflexivity.
  assert (H5 : Z.of_nat (String.length ("b0a" ++ String "010" "")) < 2 ^ 31)
    by (vm_compute; reflexivity).
  assert (H6 : exact_value 12 (digit_run 12 "b0a") <= ULLONG_MAX)
    by (vm_compute; discriminate).
  split; [exact H1|]. split; [exact H2|]. split; [exact H3|].
  split; [exact H4|]. split; [exact H5|]. split; [exact H6|].
  exact (kstrtoull_parses_digits 12 "b0a" (String "010" "") 0 H1 H2 H3 H4 H5 H6).
Defined.

(** X3. The signed parser on a non-empty string of digits below an
    explicit base from 1 up, with or without one trailing newline, shorter
    than 2^31 characters in all, whose value [m] is at most 2^64 - 1:
    without a minus sign it returns [m] up to 2^63 - 1 and fails with RANGE
    from 2^63 on; after a minus sign it returns [- m] up to 2^63 and fails
    with RANGE above. *)
Theorem kstrtoll_parses_digits (junk base : Z) (ds nl : string) (res : Z) :
  1 <= base -> ds <> "" -> all_valid_digits base ds = true ->
  line_end nl = true ->
  Z.of_nat (String.length (ds ++ nl)) < 2 ^ 31 ->
  exact_value base (digit_run base ds) <= ULLONG_MAX ->
  let m := exact_value base (digit_run base ds) in
  (m < 2 ^ 63 ->
     kstrtoll junk (ds ++ nl) base res = (0, m)
     /\ kstrtoll junk (String "+" (ds ++ nl)) base res = (0, m))
  /\ (2 ^ 63 <= m ->
     kstrtoll junk (ds ++ nl) base res = (- ERANGE, res)
     /\ kstrtoll junk (String "+" (ds ++ nl)) base res = (- ERANGE, res))
  /\ (m <= 2 ^ 63 -> kstrtoll junk (String "-" (ds ++ nl)) base res = (0, - m))
  /\ (2 ^ 63 < m -> kstrtoll junk (String "-" (ds ++ nl)) base res = (- ERANGE, res)).
Proof.
  intros Hb Hne Hall Hnl Hlen Hfit m.
  assert (Hmod : m mod 2 ^ 64 = m).
  { apply Z.mod_small. pose proof (exact_value_range base ds).
    unfold ULLONG_MAX in Hfit. subst m. lia. }
  assert (Hu : forall r, kstrtoull (ds ++ nl) base r = (0, m)).
  { intros r. rewrite kstrtoull_digits by assumption. fold m. rewrite Hmod.
    reflexivity. }
  assert (Hp : forall r, kstrtoull (String "+" (ds ++ nl)) base r = (0, m)).
  { intros r. rewrite kstrtoull_plus, _kstrtoull_digits by assumption. fold m.
    rewrite Hmod. reflexivity. }
  assert (Hi : forall r, _kstrtoull (ds ++ nl) base r = (0, m)).
  { intros r. rewrite _kstrtoull_digits by assumption. fold m. rewrite Hmod.
    reflexivity. }
  assert (Hd : (ds ++ nl).[0] <> `"-")
    by (apply (digits_first_char base); [assumption | assumption | reflexivity]).
  assert (Hq : (String "+" (ds ++ nl)).[0] <> `"-") by (vm_compute; discriminate).
  split; [|split; [|split]].
  - intros Hm.
    rewrite !kstrtoll_plain, Hu, Hp by assumption. cbn [fst snd Z.ltb Z.compare].
    replace (2 ^ 63 <=? m) with false by (symmetry; apply Z.leb_gt; lia).
    split; reflexivity.
  - intros Hm.
    rewrite !kstrtoll_plain, Hu, Hp by assumption. cbn [fst snd Z.ltb Z.compare].
    replace (2 ^ 63 <=? m) with true by (symmetry; apply Z.leb_le; lia).
    split; reflexivity.
  - intros Hm. rewrite kstrtoll_minus, Hi. cbn [fst snd Z.ltb Z.compare].
    replace (2 ^ 63 <? m) with false by (symmetry; apply Z.ltb_ge; lia).
    reflexivity.
  - intros Hm. rewrite kstrtoll_minus, Hi. cbn [fst snd Z.ltb Z.compare].
    replace (2 ^ 63 <? m) with true by (symmetry; apply Z.ltb_lt; lia).
    reflexivity.
Qed.

Lemma kstrtoll_parses_digits_witness :
  1 <= 16 /\ "8000000000000000" <> "" 
  /\ all_valid_digits 16 "8000000000000000" = true
  /\ line_end "" = true
  /\ Z.of_nat (String.length ("8000000000000000" ++ "")) < 2 ^ 31
  /\ exact_value 16 (digit_run 16 "8000000000000000") <= ULLONG_MAX
  /\ exact_value 16 (digit_run 16 "8000000000000000") <= 2 ^ 63
  /\ kstrtoll 0 (String "-" ("8000000000000000" ++ "")) 16 7
     = (0, - exact_value 16 (digit_run 16 "8000000000000000")).
Proof.
  assert (H1 : 1 <= 16) by lia.
  assert (H2 : "8000000000000000" <> "") by discriminate.
  assert (H3 : all_valid_digits 16 "8000000000000000" = true) by reflexivity.
  assert (H4 : line_end "" = true) by reflexivity.
  assert (H5 : Z.of_nat (String.length ("8000000000000000" ++ "")) < 2 ^ 31)
    by (vm_compute; reflexivity).
  assert (H6 : exact_value 16 (digit_run 16 "8000000000000000") <= ULLONG_MAX)
    by (vm_compute; discriminate).
  assert (H7 : exact_value 16 (digit_run 16 "8000000000000000") <= 2 ^ 63)
    by (vm_compute; discriminate).
  split; [exact H1|]. split; [exact H2|]. split; [exact H3|].
  split; [exact H4|]. split; [exact H5|]. split; [exact H6|]. split; [exact H7|].
  exact (proj1 (proj2 (proj2
           (kstrtoll_parses_digits 0 16 "8000000000000000" "" 7 H1 H2 H3 H4 H5 H6)))
         H7).
Defined.

(** ** Autodetected bases *)

Lemma digit_not_x (base : Z) (ds t : string) :
  all_valid_digits base ds = true -> line_end t = true ->
  match ds ++ t with
  | String x _ => (x =? "x")%char || (x =? "X")%char
  | EmptyString => false
  end = false.
Proof.
  intros Hall Hnl. destruct ds as [|d ds]; cbn [append].
  - destruct (line_end_cases t Hnl) as [->| ->]; reflexivity.
  - cbn [all_valid_digits] in Hall.
    destruct d as [[|] [|] [|] [|] [|] [|] [|] [|]]; try reflexivity;
      discriminate Hall.
Qed.

Lemma fixup_radix_leading_zero (base : Z) (ds nl : string) :
  all_valid_digits base ds = true -> line_end nl = true ->
  _parse_integer_fixup_radix (String "0" (ds ++ nl)) 0
  = (String "0" (ds ++ nl), 8).
Proof.
  intros Hall Hnl.
  pose proof (digit_not_x base ds nl Hall Hnl) as Hx.
  rewrite (surjective_pairing (_parse_integer_fixup_radix _ _)).
  rewrite fixup_radix_skip, fixup_radix_autodetect.
  cbn [autodetect_hex hex_prefixed leading_zero].
  destruct (ds ++ nl) as [|x [|h t]]; cbn [Ascii.eqb Bool.eqb andb] in *;
    try reflexivity; rewrite Hx; reflexivity.
Qed.

Lemma fixup_radix_decimal (ds nl : string) :
  ds <> "" -> leading_zero ds = false ->
  _parse_integer_fixup_radix (ds ++ nl) 0 = (ds ++ nl, 10).
Proof.
  intros Hne Hz.
  assert (Hz' : leading_zero (ds ++ nl) = false)
    by (destruct ds; [contradiction | exact Hz]).
  assert (Hx : autodetect_hex (ds ++ nl) = false).
  { destruct (ds ++ nl) as [|c [|x [|h t]]]; cbn in *; try reflexivity.
    rewrite Hz'; reflexivity. }
  assert (Hp : hex_prefixed (ds ++ nl) = false).
  { destruct (ds ++ nl) as [|c [|x t]]; cbn in *; try reflexivity.
    rewrite Hz'; reflexivity. }
  rewrite (surjective_pairing (_parse_integer_fixup_radix _ _)).
  rewrite fixup_radix_skip, fixup_radix_autodetect, Hx, Hz', Hp. reflexivity.
Qed.

Lemma fixup_radix_hex (x : ascii) (ds nl : string) :
  x = "x"%char \/ x = "X"%char -> ds <> "" -> all_valid_digits 16 ds = true ->
  _parse_integer_fixup_radix (String "0" (String x (ds ++ nl))) 0 = (ds ++ nl, 16).
Proof.
  intros Hx Hne Hall.
  destruct ds as [|h ds]; [contradiction|]. cbn [append all_valid_digits] in *.
  rewrite (surjective_pairing (_parse_integer_fixup_radix _ _)).
  rewrite fixup_radix_skip, fixup_radix_autodetect.
  cbn [autodetect_hex hex_prefixed].
  destruct Hx; subst x; (destruct (digit_value h); [reflexivity | discriminate]).
Qed.

Lemma octal_scan_stops (ds t : string) :
  all_valid_digits 10 ds = true -> all_valid_digits 8 ds = false ->
  (skip_newline
     (advance (List.length (digit_run 8 (ds ++ t))) (ds ++ t))).[0] <> 0.
Proof.
  induction ds as [|c ds IH]; cbn [all_valid_digits digit_run append];
    [discriminate|].
  destruct (digit_value c) as [v|] eqn:Hv; [|discriminate].
  intros H10 H8.
  destruct (v <? 8) eqn:E8; cbn [andb] in *.
  - apply andb_prop in H10. destruct H10 as [_ H10].
    cbn [List.length advance]. apply IH; assumption.
  - cbn [List.length advance].
    destruct c as [[|] [|] [|] [|] [|] [|] [|] [|]]; try discriminate Hv;
      vm_compute; discriminate.
Qed.

(** X4. With base 0, on digits shorter than 2^31 - 3 characters, with or
    without one trailing newline, the value is taken in the detected base
    whenever it is at most 2^64 - 1 in that base: decimal for non-empty
    decimal digits that do not start with "0", octal for octal digits after
    a leading "0", and hexadecimal for non-empty hex digits after
    "0x"/"0X"; a leading "0" followed by decimal digits of which one is 8
    or 9 is INVALID. *)
Theorem kstrtoull_autodetects (ds nl : string) (res : Z) :
  line_end nl = true ->
  Z.of_nat (String.length ds) < 2 ^ 31 - 3 ->
  (ds <> "" -> leading_zero ds = false -> all_valid_digits 10 ds = true ->
   exact_value 10 (digit_run 10 ds) <= ULLONG_MAX ->
   kstrtoull (ds ++ nl) 0 res = (0, exact_value 10 (digit_run 10 ds)))
  /\ (all_valid_digits 8 ds = true ->
      exact_value 8 (digit_run 8 ds) <= ULLONG_MAX ->
      kstrtoull (String "0" (ds ++ nl)) 0 res = (0, exact_value 8 (digit_run 8 ds)))
  /\ (forall x, x = "x"%char \/ x = "X"%char ->
      ds <> "" -> all_valid_digits 16 ds = true ->
      exact_value 16 (digit_run 16 ds) <= ULLONG_MAX ->
      kstrtoull (String "0" (String x (ds ++ nl))) 0 res
      = (0, exact_value 16 (digit_run 16 ds)))
  /\ (all_valid_digits 10 ds = true -> all_valid_digits 8 ds = false ->
      kstrtoull (String "0" (ds ++ nl)) 0 res = (- EINVAL, res)).
Proof.
  intros Hnl Hlen.
  assert (Hlen' : (String.length (ds ++ nl) <= String.length ds + 1)%nat).
  { rewrite length_app. destruct (line_end_cases nl Hnl) as [->| ->]; cbn; lia. }
  assert (Hmod : forall b, 0 <= b -> exact_value b (digit_run b ds) <= ULLONG_MAX ->
                 exact_value b (digit_run b ds) mod 2 ^ 64
                 = exact_value b (digit_run b ds)).
  { intros b Hb Hfit. apply Z.mod_small. pose proof (exact_value_range b ds Hb).
    unfold ULLONG_MAX in Hfit. lia. }
  split; [|split; [|split]].
  - intros Hne Hz Hall Hfit.
    rewrite kstrtoull_spec, digits_no_plus with (base := 10),
      fixup_radix_decimal by (assumption || lia).
    cbn [fst snd]. rewrite scan_outcome_digits, Hmod by (assumption || lia).
    reflexivity.
  - intros Hall Hfit.
    rewrite kstrtoull_spec by (cbn [String.length]; lia).
    cbn [strip_plus].
    rewrite (fixup_radix_leading_zero 8) by assumption. cbn [fst snd].
    change (String "0" (ds ++ nl)) with (String "0" ds ++ nl).
    rewrite scan_outcome_digits by (discriminate || assumption).
    assert (E : exact_value 8 (digit_run 8 (String "0" ds))
                = exact_value 8 (digit_run 8 ds)) by reflexivity.
    rewrite E, Hmod by (assumption || lia). reflexivity.
  - intros x Hx Hne Hall Hfit.
    rewrite kstrtoull_spec by (cbn [String.length]; lia).
    assert (Hs : strip_plus (String "0" (String x (ds ++ nl)))
                 = String "0" (String x (ds ++ nl))) by reflexivity.
    rewrite Hs, fixup_radix_hex by assumption. cbn [fst snd].
    rewrite scan_outcome_digits, Hmod by (assumption || lia). reflexivity.
  - intros H10 H8.
    rewrite kstrtoull_spec by (cbn [String.length]; lia).
    cbn [strip_plus].
    rewrite (fixup_radix_leading_zero 10) by assumption. cbn [fst snd].
    unfold scan_outcome.
    assert (E : digit_run 8 (String "0" (ds ++ nl)) = 0 :: digit_run 8 (ds ++ nl))
      by reflexivity.
    rewrite E. cbn [List.length advance].
    pose proof (octal_scan_stops ds nl H10 H8) as Hstop.
    apply Z.eqb_neq in Hstop. rewrite Hstop. reflexivity.
Qed.

Lemma kstrtoull_autodetects_witness :
  line_end (String "010" "") = true
  /\ Z.of_nat (String.length "1289") < 2 ^ 31 - 3
  /\ Z.of_nat (String.length "17") < 2 ^ 31 - 3
  /\ Z.of_nat (String.length "1f") < 2 ^ 31 - 3
  /\ ("1289" <> "" /\ leading_zero "1289" = false
      /\ all_valid_digits 10 "1289" = true
      /\ exact_value 10 (digit_run 10 "1289") <= ULLONG_MAX
      /\ kstrtoull ("1289" ++ String "010" "") 0 5
         = (0, exact_value 10 (digit_run 10 "1289")))
  /\ (all_valid_digits 8 "17" = true
      /\ exact_value 8 (digit_run 8 "17") <= ULLONG_MAX
      /\ kstrtoull (String "0" ("17" ++ String "010" "")) 0 5
         = (0, exact_value 8 (digit_run 8 "17")))
  /\ (("X"%char = "x"%char \/ "X"%char = "X"%char)
      /\ "1f" <> "" /\ all_valid_digits 16 "1f" = true
      /\ exact_value 16 (digit_run 16 "1f") <= ULLONG_MAX
      /\ kstrtoull (String "0" (String "X" ("1f" ++ String "010" ""))) 0 5
         = (0, exact_value 16 (digit_run 16 "1f")))
  /\ (all_valid_digits 10 "1289" = true
      /\ all_valid_digits 8 "1289" = false
      /\ kstrtoull (String "0" ("1289" ++ String "010" "")) 0 5 = (- EINVAL, 5)).
Proof.
  assert (Hnl : line_end (String "010" "") = true) by reflexivity.
  assert (L1 : Z.of_nat (String.length "1289") < 2 ^ 31 - 3)
    by (vm_compute; reflexivity).
  assert (L2 : Z.of_nat (String.length "17") < 2 ^ 31 - 3)
    by (vm_compute; reflexivity).
  assert (L3 : Z.of_nat (String.length "1f") < 2 ^ 31 - 3)
    by (vm_compute; reflexivity).
  assert (D1 : "1289" <> "") by discriminate.
  assert (D2 : leading_zero "1289" = false) by reflexivity.
  assert (D3 : all_valid_digits 10 "1289" = true) by reflexivity.
  assert (D4 : exact_value 10 (digit_run 10 "1289") <= ULLONG_MAX)
    by (vm_compute; discriminate).
  assert (O1 : all_valid_digits 8 "17" = true) by reflexivity.
  assert (O2 : exact_value 8 (digit_run 8 "17") <= ULLONG_MAX)
    by (vm_compute; discriminate).
  assert (X1 : "X"%char = "x"%char \/ "X"%char = "X"%char) by (right; reflexivity).
  assert (X2 : "1f" <> "") by discriminate.
  assert (X3 : all_valid_digits 16 "1f" = true) by reflexivity.
  assert (X4 : exact_value 16 (digit_run 16 "1f") <= ULLONG_MAX)
    by (vm_compute; discriminate).
  assert (E1 : all_valid_digits 8 "1289" = false) by reflexivity.
  split; [exact Hnl|]. split; [exact L1|]. split; [exact L2|]. split; [exact L3|].
  split.
  { split; [exact D1|]. split; [exact D2|]. split; [exact D3|]. split; [exact D4|].
    exact (proj1 (kstrtoull_autodetects "1289" (String "010" "") 5 Hnl L1)
                 D1 D2 D3 D4). }
  split.
  { split; [exact O1|]. split; [exact O2|].
    exact (proj1 (proj2 (kstrtoull_autodetects "17" (String "010" "") 5 Hnl L2))
                 O1 O2). }
  split.
  { split; [exact X1|]. split; [exact X2|]. split; [exact X3|]. split; [exact X4|].
    exact (proj1 (proj2 (proj2
             (kstrtoull_autodetects "1f" (String "010" "") 5 Hnl L3)))
           "X"%char X1 X2 X3 X4). }
  split; [exact D3|]. split; [exact E1|].
  exact (proj2 (proj2 (proj2
           (kstrtoull_autodetects "1289" (String "010" "") 5 Hnl L1))) D3 E1).
Defined.

(** ** What the unsigned parser accepts *)

Lemma take_advance (n : nat) (s : string) : take n s ++ advance n s = s.
Proof.
  revert s; induction n as [|n IH]; intros [|c s]; cbn [take advance append];
    try reflexivity.
  rewrite IH. reflexivity.
Qed.

Lemma digit_run_take (base : Z) (s : string) :
  all_valid_digits base (take (List.length (digit_run base s)) s) = true
  /\ digit_run base (take (List.length (digit_run base s)) s) = digit_run base s.
Proof.
  induction s as [|c s [IH1 IH2]]; cbn [digit_run]; [split; reflexivity|].
  destruct (digit_value c) as [v|] eqn:Hv; [|split; reflexivity].
  destruct (v <? base) eqn:Hlt; [|split; reflexivity].
  cbn [List.length take all_valid_digits digit_run].
  rewrite Hv, Hlt, IH1, IH2. split; reflexivity.
Qed.

Lemma nul_free_advance (n : nat) (s : string) :
  nul_free s = true -> nul_free (advance n s) = true.
Proof.
  revert s; induction n as [|n IH]; intros [|c s]; cbn [advance nul_free];
    try (intros; assumption || reflexivity).
  intros H. apply andb_prop in H. apply IH, H.
Qed.

Lemma nul_free_first (s : string) :
  nul_free s = true -> s.[0] = 0 -> s = "".
Proof.
  destruct s as [|c s]; [reflexivity|]. cbn [nul_free]. unfold at_; cbn [String.get].
  intros H E. change 0 with (code "000") in E. apply code_inj in E. subst c.
  discriminate H.
Qed.

Lemma line_end_shape (r : string) :
  nul_free r = true -> (skip_newline r).[0] = 0 -> line_end r = true.
Proof.
  intros Hn H.
  destruct r as [|c r]; [reflexivity|].
  destruct (Ascii.eqb_spec c "010") as [->|Hc].
  - cbn [skip_newline] in H. cbn [nul_free] in Hn. apply andb_prop in Hn.
    rewrite (nul_free_first r (proj2 Hn) H). reflexivity.
  - assert (Hs : skip_newline (String c r) = String c r).
    { destruct c as [[|] [|] [|] [|] [|] [|] [|] [|]]; try reflexivity.
      contradiction Hc; reflexivity. }
    rewrite Hs in H. apply nul_free_first in H; [discriminate H | exact Hn].
Qed.

Lemma scan_outcome_accepts (base : Z) (s : string) (res v : Z) :
  nul_free s = true -> scan_outcome base s res = (0, v) ->
  exists ds nl,
    s = ds ++ nl /\ ds <> "" /\ all_valid_digits base ds = true
    /\ line_end nl = true
    /\ v = exact_value base (digit_run base ds) mod 2 ^ 64.
Proof.
  intros Hn. unfold scan_outcome.
  destruct (digit_run_take base s) as [Hall Hrun].
  pose proof (take_advance (List.length (digit_run base s)) s) as Hsplit.
  destruct (digit_run base s) as [|d run] eqn:Erun; [discriminate|].
  destruct (Z.eqb_spec
              (skip_newline (advance (List.length (d :: run)) s)).[0] 0)
    as [E|E]; [|discriminate].
  intros H; injection H as <-.
  exists (take (List.length (d :: run)) s), (advance (List.length (d :: run)) s).
  split; [symmetry; exact Hsplit|].
  split.
  { intros E0. rewrite E0 in Hrun. discriminate Hrun. }
  split; [exact Hall|].
  split; [apply line_end_shape; [apply nul_free_advance, Hn | exact E]|].
  rewrite Hrun. reflexivity.
Qed.

Lemma strip_plus_shape (s : string) :
  exists p, s = p ++ strip_plus s /\ (p = "" \/ p = "+").
Proof.
  destruct s as [|c s]; [exists ""; auto|].
  destruct (Ascii.eqb_spec c "+") as [->|Hc].
  - exists "+". auto.
  - exists "". split; [|auto]. cbn [append].
    destruct c as [[|] [|] [|] [|] [|] [|] [|] [|]]; try reflexivity.
    contradiction Hc; reflexivity.
Qed.

Lemma hex_prefixed_shape (s : string) :
  hex_prefixed s = true ->
  exists pre, s = pre ++ advance 2 s /\ (pre = "0x" \/ pre = "0X").
Proof.
  destruct s as [|c [|x t]]; cbn [hex_prefixed]; try discriminate.
  intros H. apply andb_prop in H. destruct H as [Hc Hx].
  apply Ascii.eqb_eq in Hc. subst c.
  apply orb_prop in Hx.
  destruct Hx as [Hx|Hx]; apply Ascii.eqb_eq in Hx; subst x;
    [exists "0x" | exists "0X"]; auto.
Qed.

Lemma fixup_radix_shape (s : string) (base : Z) :
  exists pre,
    s = pre ++ fst (_parse_integer_fixup_radix s base)
    /\ (pre = "" \/ ((pre = "0x" \/ pre = "0X")
                     /\ snd (_parse_integer_fixup_radix s base) = 16)).
Proof.
  rewrite fixup_radix_skip.
  destruct (snd (_parse_integer_fixup_radix s base) =? 16) eqn:E16; cbn [andb].
  - destruct (hex_prefixed s) eqn:Hp.
    + destruct (hex_prefixed_shape s Hp) as (pre & Hs & Hpre).
      exists pre. split; [exact Hs|]. right. split; [exact Hpre|].
      apply Z.eqb_eq, E16.
    + exists "". auto.
  - exists "". auto.
Qed.

Lemma fixup_radix_base (s : string) (base : Z) :
  (base <> 0 -> snd (_parse_integer_fixup_radix s base) = base)
  /\ (base = 0 -> snd (_parse_integer_fixup_radix s base) = 8
                  \/ snd (_parse_integer_fixup_radix s base) = 10
                  \/ snd (_parse_integer_fixup_radix s base) = 16).
Proof.
  split; [apply fixup_radix_explicit|].
  intros ->. rewrite fixup_radix_autodetect.
  destruct (autodetect_hex s); [auto|]. destruct (leading_zero s); auto.
Qed.

Lemma nul_free_strip_plus (s : string) :
  nul_free s = true -> nul_free (strip_plus s) = true.
Proof.
  intros H. rewrite <- strip_plus_code.
  destruct (_ =? _); [apply nul_free_advance|]; exact H.
Qed.

Lemma nul_free_fixup (s : string) (base : Z) :
  nul_free s = true -> nul_free (fst (_parse_integer_fixup_radix s base)) = true.
Proof.
  intros H. rewrite fixup_radix_skip.
  destruct (_ && _); [apply nul_free_advance|]; exact H.
Qed.

(** X5. Whatever the unsigned parser accepts has the form: at most one
    plus sign, "0x"/"0X" only where the base in effect is 16, at least one
    digit below the base in effect, and at most one newline; the base in
    effect is the given one, or 8, 10 or 16 for base 0; the result is the
    value of the digits modulo 2^64. *)
Theorem kstrtoull_accepts_only (s : string) (base res v : Z) :
  nul_free s = true ->
  Z.of_nat (String.length s) < 2 ^ 31 ->
  kstrtoull s base res = (0, v) ->
  exists (p pre ds nl : string) (b : Z),
    s = p ++ pre ++ ds ++ nl
    /\ (p = "" \/ p = "+")
    /\ (pre = "" \/ ((pre = "0x" \/ pre = "0X") /\ b = 16))
    /\ (base <> 0 -> b = base)
    /\ (base = 0 -> b = 8 \/ b = 10 \/ b = 16)
    /\ ds <> "" /\ all_valid_digits b ds = true
    /\ line_end nl = true
    /\ v = exact_value b (digit_run b ds) mod 2 ^ 64.
Proof.
  intros Hn Hlen H.
  rewrite kstrtoull_spec in H by exact Hlen.
  destruct (strip_plus_shape s) as (p & Hs & Hp).
  destruct (fixup_radix_shape (strip_plus s) base) as (pre & Hs1 & Hpre).
  destruct (fixup_radix_base (strip_plus s) base) as [Hb1 Hb0].
  apply scan_outcome_accepts in H;
    [|apply nul_free_fixup, nul_free_strip_plus, Hn].
  destruct H as (ds & nl & Hs2 & Hne & Hall & Hnl & Hv).
  exists p, pre, ds, nl, (snd (_parse_integer_fixup_radix (strip_plus s) base)).
  split; [rewrite <- Hs2, <- Hs1; exact Hs|].
  repeat (split; [assumption|]). assumption.
Qed.

Lemma kstrtoull_accepts_only_witness :
  nul_free "+0x1f" = true
  /\ Z.of_nat (String.length "+0x1f") < 2 ^ 31
  /\ kstrtoull "+0x1f" 0 0 = (0, 31)
  /\ exists (p pre ds nl : string) (b : Z),
    "+0x1f" = p ++ pre ++ ds ++ nl
    /\ (p = "" \/ p = "+")
    /\ (pre = "" \/ ((pre = "0x" \/ pre = "0X") /\ b = 16))
    /\ (0 <> 0 -> b = 0)
    /\ (0 = 0 -> b = 8 \/ b = 10 \/ b = 16)
    /\ ds <> "" /\ all_valid_digits b ds = true
    /\ line_end nl = true
    /\ 31 = exact_value b (digit_run b ds) mod 2 ^ 64.
Proof.
  assert (H1 : nul_free "+0x1f" = true) by reflexivity.
  assert (H2 : Z.of_nat (String.length "+0x1f") < 2 ^ 31) by (vm_compute; reflexivity).
  assert (H3 : kstrtoull "+0x1f" 0 0 = (0, 31)) by (vm_compute; reflexivity).
  split; [exact H1|]. split; [exact H2|]. split; [exact H3|].
  exact (kstrtoull_accepts_only "+0x1f" 0 0 31 H1 H2 H3).
Defined.

(** ** Letter case *)

Lemma at_lower {A : Type} (f : Z -> A) (s : string) (i : nat) :
  (forall c, f (code (lower_char c)) = f (code c)) ->
  f (lower s).[i] = f s.[i].
Proof.
  intros Hf. revert i; induction s as [|c s IH]; intros i; [reflexivity|].
  destruct i as [|i]; unfold at_ in *; cbn [lower String.get].
  - apply Hf.
  - apply IH.
Qed.

Lemma lower_char_digit (c : ascii) :
  digit_of_char (code (lower_char c)) = digit_of_char (code c).
Proof. destruct c as [[|] [|] [|] [|] [|] [|] [|] [|]]; reflexivity. Qed.

Lemma lower_char_eqb (k : ascii) (c : ascii) :
  lower_char k = k -> (forall d, lower_char d = k -> d = k) ->
  (code (lower_char c) =? code k) = (code c =? code k).
Proof.
  intros Hk Hinj. rewrite !code_eqb.
  destruct (Ascii.eqb_spec c k) as [->|Hne].
  - rewrite Hk. apply Ascii.eqb_refl.
  - apply Ascii.eqb_neq. intros E. apply Hne, Hinj, E.
Qed.

Lemma lower_char_only (k : ascii) :
  (`"a" <=? code k) && (code k <=? `"z") = false ->
  forall d, lower_char d = k -> d = k.
Proof.
  intros Hk d E.
  destruct d as [[|] [|] [|] [|] [|] [|] [|] [|]];
    try exact E; subst k; discriminate Hk.
Qed.

Lemma lower_char_nul (c : ascii) : (code (lower_char c) =? 0) = (code c =? 0).
Proof.
  apply (lower_char_eqb "000" c); [reflexivity|].
  apply lower_char_only; reflexivity.
Qed.

Lemma lower_char_x (c : ascii) :
  (_tolower (code (lower_char c)) =? `"x") = (_tolower (code c) =? `"x").
Proof. destruct c as [[|] [|] [|] [|] [|] [|] [|] [|]]; reflexivity. Qed.

Lemma lower_char_xdigit (c : ascii) :
  isxdigit (code (lower_char c)) = isxdigit (code c).
Proof. destruct c as [[|] [|] [|] [|] [|] [|] [|] [|]]; reflexivity. Qed.

Lemma parse_loop_lower (s : string) (base res rv overflow : Z) :
  parse_loop (lower s) base res rv overflow = parse_loop s base res rv overflow.
Proof.
  revert res rv overflow; induction s as [|c s IH]; intros res rv overflow;
    cbn [lower parse_loop]; [reflexivity|].
  rewrite lower_char_nul, lower_char_digit.
  destruct (code c =? 0); [reflexivity|].
  destruct (digit_of_char (code c)) as [val|]; [|reflexivity].
  destruct (val >=? base); [reflexivity|].
  apply IH.
Qed.

Lemma advance_lower (n : nat) (s : string) :
  advance n (lower s) = lower (advance n s).
Proof.
  revert s; induction n as [|n IH]; intros [|c s]; cbn [advance lower];
    try reflexivity.
  apply IH.
Qed.

Ltac lower_test k :=
  apply (at_lower (fun z => z =? code k)); intros c;
  apply (lower_char_eqb k c); [reflexivity | apply lower_char_only; reflexivity].

Lemma fixup_radix_lower (s : string) (base : Z) :
  _parse_integer_fixup_radix (lower s) base
  = (lower (fst (_parse_integer_fixup_radix s base)),
     snd (_parse_integer_fixup_radix s base)).
Proof.
  unfold _parse_integer_fixup_radix; cbn [fst snd].
  assert (H0 : ((lower s).[0] =? `"0") = (s.[0] =? `"0")) by lower_test "0"%char.
  assert (H1 : (_tolower (lower s).[1] =? `"x") = (_tolower s.[1] =? `"x"))
    by (apply (at_lower (fun z => _tolower z =? `"x")), lower_char_x).
  assert (H2 : isxdigit (lower s).[2] = isxdigit s.[2])
    by (apply (at_lower isxdigit), lower_char_xdigit).
  rewrite H0, H1, H2.
  destruct (_ && _ && _); [rewrite advance_lower|]; reflexivity.
Qed.

Lemma _kstrtoull_lower (s : string) (base res : Z) :
  _kstrtoull (lower s) base res = _kstrtoull s base res.
Proof.
  unfold _kstrtoull, _parse_integer. rewrite fixup_radix_lower.
  destruct (_parse_integer_fixup_radix s base) as [s2 b]; cbn [fst snd].
  rewrite parse_loop_lower.
  destruct (parse_loop s2 b 0 0 0) as [[r rv] ov].
  destruct (negb (Z.land _ _ =? 0)); [reflexivity|].
  destruct (_ =? 0); [reflexivity|].
  rewrite advance_lower.
  set (rest := advance (Z.to_nat _) s2).
  assert (Hn : ((lower rest).[0] =? `"010") = (rest.[0] =? `"010"))
    by lower_test "010"%char.
  rewrite Hn.
  assert (Hz : forall u, ((lower u).[0] =? 0) = (u.[0] =? 0)).
  { intros u. apply (at_lower (fun z => z =? 0)), lower_char_nul. }
  destruct (rest.[0] =? `"010"); [rewrite advance_lower|]; rewrite Hz; reflexivity.
Qed.

Lemma kstrtoull_lower (s : string) (base res : Z) :
  kstrtoull (lower s) base res = kstrtoull s base res.
Proof.
  unfold kstrtoull.
  assert (Hp : ((lower s).[0] =? `"+") = (s.[0] =? `"+")) by lower_test "+"%char.
  rewrite Hp. destruct (s.[0] =? `"+"); [rewrite advance_lower|];
    apply _kstrtoull_lower.
Qed.

Lemma kstrtoll_lower (junk : Z) (s : string) (base res : Z) :
  kstrtoll junk (lower s) base res = kstrtoll junk s base res.
Proof.
  unfold kstrtoll.
  assert (Hm : ((lower s).[0] =? `"-") = (s.[0] =? `"-")) by lower_test "-"%char.
  rewrite Hm. destruct (s.[0] =? `"-").
  - rewrite advance_lower, _kstrtoull_lower. reflexivity.
  - rewrite kstrtoull_lower. reflexivity.
Qed.

Lemma bool_token_lower (s : string) : bool_token (lower s) = bool_token s.
Proof.
  destruct s as [|c s]; [reflexivity|]. cbn [lower].
  destruct c as [[|] [|] [|] [|] [|] [|] [|] [|]]; try reflexivity;
    (destruct s as [|d s]; [reflexivity|]); cbn [lower];
    destruct d as [[|] [|] [|] [|] [|] [|] [|] [|]]; reflexivity.
Qed.

(** X6. Letter case never matters: two inputs that differ only in the
    case of ASCII letters get the same outcome from every parser. *)
Theorem parsers_ignore_case
        (junk L : Z) (s t : string) (base res : Z) (rb : bool) :
  lower s = lower t ->
  kstrtoull s base res = kstrtoull t base res
  /\ kstrtoll junk s base res = kstrtoll junk t base res
  /\ _kstrtoul junk L s base res = _kstrtoul junk L t base res
  /\ _kstrtol junk L s base res = _kstrtol junk L t base res
  /\ kstrtouint junk s base res = kstrtouint junk t base res
  /\ kstrtoint junk s base res = kstrtoint junk t base res
  /\ kstrtou16 junk s base res = kstrtou16 junk t base res
  /\ kstrtos16 junk s base res = kstrtos16 junk t base res
  /\ kstrtou8 junk s base res = kstrtou8 junk t base res
  /\ kstrtos8 junk s base res = kstrtos8 junk t base res
  /\ kstrtobool (Some s) rb = kstrtobool (Some t) rb.
Proof.
  intros E.
  assert (Hu : forall r, kstrtoull s base r = kstrtoull t base r).
  { intros r. rewrite <- (kstrtoull_lower s), <- (kstrtoull_lower t), E.
    reflexivity. }
  assert (Hl : forall r, kstrtoll junk s base r = kstrtoll junk t base r).
  { intros r. rewrite <- (kstrtoll_lower junk s), <- (kstrtoll_lower junk t), E.
    reflexivity. }
  unfold _kstrtoul, _kstrtol, kstrtouint, kstrtoint, kstrtou16, kstrtos16,
    kstrtou8, kstrtos8.
  rewrite !Hu, !Hl, !kstrtobool_table.
  rewrite <- (bool_token_lower s), <- (bool_token_lower t), E.
  repeat split; reflexivity.
Qed.

Lemma parsers_ignore_case_witness :
  lower "0XfF" = lower "0xFf"
  /\ kstrtoull "0XfF" 0 0 = kstrtoull "0xFf" 0 0.
Proof.
  assert (H : lower "0XfF" = lower "0xFf") by reflexivity.
  split; [exact H|].
  exact (proj1 (parsers_ignore_case 0 64 "0XfF" "0xFf" 0 0 false H)).
Defined.

(** ** The wrappers in terms of ranges *)

Lemma success_any_slot (f : Z -> Z * Z) (r1 r2 v : Z) :
  slot_discipline f -> f r1 = (0, v) -> f r2 = (0, v).
Proof.
  intros (rc & w & _ & Hf). rewrite !Hf.
  destruct (rc =? 0) eqn:E; [auto|].
  intros H; injection H as H _. subst rc. discriminate E.
Qed.

Lemma narrowing_success_iff (cast widen : Z -> Z) (wide : Z * Z) (res v : Z) :
  fst wide = 0 \/ fst wide = - EINVAL \/ fst wide = - ERANGE ->
  widen (cast (snd wide)) = cast (snd wide) ->
  (let '(rv, tmp) := wide in
   if rv <? 0 then (rv, res)
   else if negb (tmp =? widen (cast tmp)) then (- ERANGE, res)
   else (0, cast tmp)) = (0, v)
  <-> wide = (0, v) /\ cast v = v.
Proof.
  destruct wide as [rv tmp]; cbn [fst snd]. intros Hrc Hw. rewrite Hw.
  destruct Hrc as [->|[->| ->]]; cbn [Z.ltb Z.compare EINVAL ERANGE Z.opp].
  - destruct (Z.eqb_spec tmp (cast tmp)) as [E|E]; cbn [negb].
    + split.
      * intros H; injection H as H. split; congruence.
      * intros [H Hc]; injection H as ->. rewrite Hc. reflexivity.
    + split; [discriminate|]. intros [H Hc]; injection H as ->. congruence.
  - split; [discriminate|]. intros [H _]; discriminate H.
  - split; [discriminate|]. intros [H _]; discriminate H.
Qed.

Lemma unsigned_wrapper_iff (w : Z) (s : string) (base junk res r v : Z) :
  0 <= w <= 64 ->
  (let '(rv, tmp) := kstrtoull s base junk in
   if rv <? 0 then (rv, res)
   else if negb (tmp =? cast_unsigned 64 (cast_unsigned w tmp)) then (- ERANGE, res)
   else (0, cast_unsigned w tmp)) = (0, v)
  <-> kstrtoull s base r = (0, v) /\ v < 2 ^ w.
Proof.
  intros Hw.
  rewrite narrowing_success_iff
    by (apply kstrtoull_codes || (apply widen_unsigned; exact Hw)).
  split.
  - intros [H Hc]. split.
    + apply (success_any_slot _ junk); [apply kstrtoull_discipline | exact H].
    + apply cast_unsigned_fits in Hc; lia.
  - intros [H Hv].
    apply (success_any_slot _ r junk) in H; [|apply kstrtoull_discipline].
    split; [exact H|]. apply cast_unsigned_fits; [lia|].
    destruct (kstrtoull_outcome s base junk) as [[_ Hr]|[[E|E] _]];
      rewrite H in *; cbn [fst snd] in *; [lia | discriminate E | discriminate E].
Qed.

Lemma signed_wrapper_iff (w : Z) (s : string) (base junk res r v : Z) :
  0 < w <= 64 ->
  (let '(rv, tmp) := kstrtoll junk s base junk in
   if rv <? 0 then (rv, res)
   else if negb (tmp =? cast_signed 64 (cast_signed w tmp)) then (- ERANGE, res)
   else (0, cast_signed w tmp)) = (0, v)
  <-> kstrtoll junk s base r = (0, v) /\ - 2 ^ (w - 1) <= v < 2 ^ (w - 1).
Proof.
  intros Hw.
  rewrite narrowing_success_iff
    by (apply kstrtoll_codes || (apply widen_signed; exact Hw)).
  split.
  - intros [H Hc]. split.
    + apply (success_any_slot _ junk); [apply kstrtoll_discipline | exact H].
    + apply cast_signed_fits in Hc; lia.
  - intros [H Hv].
    apply (success_any_slot _ r junk) in H; [|apply kstrtoll_discipline].
    split; [exact H|]. apply cast_signed_fits; [lia | exact Hv].
Qed.

(** X7. Each wrapper succeeds with [v] exactly when the 64-bit parser does
    and [v] lies in the range of the target type: below 2^32, 2^16, 2^8 for
    the unsigned ones, within [-2^31, 2^31), [-2^15, 2^15), [-2^7, 2^7) for
    the signed ones, and the range of [long] for [_kstrtoul] and [_kstrtol]. *)
Theorem wrappers_accept_target_range
        (junk L : Z) (s : string) (base res r v : Z) :
  L = 32 \/ L = 64 ->
  (kstrtouint junk s base res = (0, v)
   <-> kstrtoull s base r = (0, v) /\ v < 2 ^ 32)
  /\ (kstrtou16 junk s base res = (0, v)
      <-> kstrtoull s base r = (0, v) /\ v < 2 ^ 16)
  /\ (kstrtou8 junk s base res = (0, v)
      <-> kstrtoull s base r = (0, v) /\ v < 2 ^ 8)
  /\ (_kstrtoul junk L s base res = (0, v)
      <-> kstrtoull s base r = (0, v) /\ v < 2 ^ L)
  /\ (kstrtoint junk s base res = (0, v)
      <-> kstrtoll junk s base r = (0, v) /\ - 2 ^ 31 <= v < 2 ^ 31)
  /\ (kstrtos16 junk s base res = (0, v)
      <-> kstrtoll junk s base r = (0, v) /\ - 2 ^ 15 <= v < 2 ^ 15)
  /\ (kstrtos8 junk s base res = (0, v)
      <-> kstrtoll junk s base r = (0, v) /\ - 2 ^ 7 <= v < 2 ^ 7)
  /\ (_kstrtol junk L s base res = (0, v)
      <-> kstrtoll junk s base r = (0, v) /\ - 2 ^ (L - 1) <= v < 2 ^ (L - 1)).
Proof.
  intros HL.
  assert (HL' : 0 < L <= 64) by (destruct HL; subst L; lia).
  split; [apply unsigned_wrapper_iff; lia|].
  split; [apply unsigned_wrapper_iff; lia|].
  split; [apply unsigned_wrapper_iff; lia|].
  split; [apply unsigned_wrapper_iff; lia|].
  split; [apply (signed_wrapper_iff 32); lia|].
  split; [apply (signed_wrapper_iff 16); lia|].
  split; [apply (signed_wrapper_iff 8); lia|].
  apply signed_wrapper_iff; lia.
Qed.

Lemma wrappers_accept_target_range_witness :
  (32 = 32 \/ 32 = 64)
  /\ (kstrtos8 0 "-128" 10 5 = (0, -128)
      <-> kstrtoll 0 "-128" 10 9 = (0, -128) /\ - 2 ^ 7 <= -128 < 2 ^ 7).
Proof.
  assert (H : 32 = 32 \/ 32 = 64) by (left; reflexivity).
  split; [exact H|].
  exact (proj1 (proj2 (proj2 (proj2 (proj2 (proj2 (proj2
           (wrappers_accept_target_range 0 32 "-128" 10 5 9 (-128) H)))))))).
Defined.

(** ** Signed against unsigned *)

Lemma kstrtoull_no_minus (s : string) (base res v : Z) :
  kstrtoull s base res = (0, v) -> s.[0] <> `"-".
Proof.
  intros H E. destruct (first_char_minus s E) as [t ->].
  rewrite kstrtoull_non_digit in H by (reflexivity || discriminate).
  discriminate H.
Qed.

Lemma kstrtoull_success_range (s : string) (base res v : Z) :
  kstrtoull s base res = (0, v) -> 0 <= v < 2 ^ 64.
Proof.
  intros H.
  destruct (kstrtoull_outcome s base res) as [[_ Hr]|[[E|E] _]];
    rewrite H in *; cbn [fst snd] in *; [exact Hr | discriminate E | discriminate E].
Qed.

Lemma _kstrtoull_success_range (s : string) (base res v : Z) :
  _kstrtoull s base res = (0, v) -> 0 <= v < 2 ^ 64.
Proof.
  intros H.
  destruct (_kstrtoull_outcome s base res) as [[_ Hr]|[[E|E] _]];
    rewrite H in *; cbn [fst snd] in *; [exact Hr | discriminate E | discriminate E].
Qed.

Lemma kstrtoull_then_kstrtoll (junk : Z) (s : string) (base r r' v : Z) :
  kstrtoull s base r = (0, v) -> v < 2 ^ 63 ->
  kstrtoll junk s base r' = (0, v).
Proof.
  intros H Hv.
  rewrite kstrtoll_plain by (apply (kstrtoull_no_minus s base r v H)).
  apply (success_any_slot _ r junk) in H; [|apply kstrtoull_discipline].
  rewrite H; cbn [fst snd Z.ltb Z.compare].
  replace (2 ^ 63 <=? v) with false by (symmetry; apply Z.leb_gt; lia).
  reflexivity.
Qed.

Lemma kstrtoll_then_kstrtoull (junk : Z) (s : string) (base r r' v : Z) :
  s.[0] <> `"-" -> kstrtoll junk s base r = (0, v) ->
  kstrtoull s base r' = (0, v) /\ v < 2 ^ 63.
Proof.
  intros Hs H. rewrite kstrtoll_plain in H by exact Hs.
  destruct (kstrtoull_outcome s base junk) as [[Hrc Hr]|[Hrc _]].
  - rewrite Hrc in H; cbn [Z.ltb Z.compare] in H.
    destruct (2 ^ 63 <=? snd (kstrtoull s base junk)) eqn:E; [discriminate H|].
    injection H as H. apply Z.leb_gt in E. split; [|lia].
    apply (success_any_slot _ junk); [apply kstrtoull_discipline|].
    rewrite (surjective_pairing (kstrtoull s base junk)), Hrc, H. reflexivity.
  - destruct Hrc as [Hrc|Hrc]; rewrite Hrc in H; discriminate H.
Qed.

Lemma unsigned_entry_no_plus (s : string) (base res : Z) :
  s.[0] <> `"+" -> kstrtoull s base res = _kstrtoull s base res.
Proof.
  intros Hs. unfold kstrtoull.
  replace (s.[0] =? `"+") with false by (symmetry; apply Z.eqb_neq; exact Hs).
  reflexivity.
Qed.

Lemma _kstrtoull_no_sign (s : string) (base res v : Z) :
  _kstrtoull s base res = (0, v) -> s.[0] <> `"+" /\ s.[0] <> `"-".
Proof.
  intros H. split; intros E.
  - destruct s as [|c t]; [discriminate E|].
    unfold at_ in E; cbn [String.get] in E. apply code_inj in E. subst c.
    rewrite _kstrtoull_rejects_plus in H. discriminate H.
  - destruct (first_char_minus s E) as [t ->].
    rewrite _kstrtoull_no_digit in H by (discriminate || reflexivity).
    discriminate H.
Qed.

(** X8. The signed and the unsigned parser agree wherever both apply, and
    a minus sign negates: an unsigned result below 2^63 is also the signed
    result; a signed result of an input without a minus sign is also the
    unsigned result; putting a minus sign before an unsigned input negates
    its signed result, and taking it away negates back unless the result is
    -2^63. *)
Theorem signed_unsigned_agree (junk : Z) (s : string) (base r r' v : Z) :
  (kstrtoull s base r = (0, v) -> v < 2 ^ 63 ->
   kstrtoll junk s base r' = (0, v))
  /\ (s.[0] <> `"-" -> kstrtoll junk s base r = (0, v) ->
      kstrtoull s base r' = (0, v))
  /\ (s.[0] <> `"+" -> s.[0] <> `"-" -> kstrtoll junk s base r = (0, v) ->
      kstrtoll junk (String "-" s) base r' = (0, - v))
  /\ (kstrtoll junk (String "-" s) base r = (0, v) -> v <> - 2 ^ 63 ->
      kstrtoll junk s base r' = (0, - v) /\ - 2 ^ 63 < v <= 0).
Proof.
  split; [apply kstrtoull_then_kstrtoll|].
  split; [intros Hs H; apply (kstrtoll_then_kstrtoull junk s base r r' v Hs H)|].
  split.
  - intros Hp Hm H.
    destruct (kstrtoll_then_kstrtoull junk s base r junk v Hm H) as [Hu Hv].
    rewrite unsigned_entry_no_plus in Hu by exact Hp.
    rewrite kstrtoll_minus, Hu; cbn [fst snd Z.ltb Z.compare].
    replace (2 ^ 63 <? v) with false by (symmetry; apply Z.ltb_ge; lia).
    reflexivity.
  - intros H Hv. rewrite kstrtoll_minus in H.
    destruct (_kstrtoull_outcome s base junk) as [[Hrc Hr]|[Hrc _]].
    + rewrite Hrc in H; cbn [Z.ltb Z.compare] in H.
      destruct (2 ^ 63 <? snd (_kstrtoull s base junk)) eqn:E; [discriminate H|].
      injection H as H. apply Z.ltb_ge in E.
      assert (Hi : _kstrtoull s base junk = (0, - v)).
      { rewrite (surjective_pairing (_kstrtoull s base junk)), Hrc.
        f_equal. lia. }
      destruct (_kstrtoull_no_sign s base junk (- v) Hi) as [Hp Hm].
      split; [|lia].
      apply (kstrtoull_then_kstrtoll junk s base junk r'); [|lia].
      rewrite unsigned_entry_no_plus by exact Hp. exact Hi.
    + destruct Hrc as [Hrc|Hrc]; rewrite Hrc in H; discriminate H.
Qed.

Lemma signed_unsigned_agree_witness :
  "077".[0] <> `"+" /\ "077".[0] <> `"-"
  /\ kstrtoll 0 "077" 0 1 = (0, 63)
  /\ kstrtoll 0 (String "-" "077") 0 2 = (0, - 63).
Proof.
  assert (H1 : "077".[0] <> `"+") by (vm_compute; discriminate).
  assert (H2 : "077".[0] <> `"-") by (vm_compute; discriminate).
  assert (H3 : kstrtoll 0 "077" 0 1 = (0, 63)) by (vm_compute; reflexivity).
  split; [exact H1|]. split; [exact H2|]. split; [exact H3|].
  exact (proj1 (proj2 (proj2 (signed_unsigned_agree 0 "077" 0 1 2 63))) H1 H2 H3).
Defined.

(** X9. A value accepted for a narrow type is accepted, unchanged, for
    every wider type of the same signedness, and a value accepted for an
    unsigned type is accepted for the next wider signed type. *)
Theorem narrow_success_widens (junk : Z) (s : string) (base res v : Z) :
  (kstrtou8 junk s base res = (0, v) -> kstrtou16 junk s base res = (0, v))
  /\ (kstrtou16 junk s base res = (0, v) -> kstrtouint junk s base res = (0, v))
  /\ (kstrtouint junk s base res = (0, v) -> kstrtoull s base res = (0, v))
  /\ (kstrtos8 junk s base res = (0, v) -> kstrtos16 junk s base res = (0, v))
  /\ (kstrtos16 junk s base res = (0, v) -> kstrtoint junk s base res = (0, v))
  /\ (kstrtoint junk s base res = (0, v) -> kstrtoll junk s base res = (0, v))
  /\ (kstrtou8 junk s base res = (0, v) -> kstrtos16 junk s base res = (0, v))
  /\ (kstrtou16 junk s base res = (0, v) -> kstrtoint junk s base res = (0, v))
  /\ (kstrtouint junk s base res = (0, v) -> kstrtoll junk s base res = (0, v)).
Proof.
  pose proof (unsigned_wrapper_iff 8 s base junk res res v) as U8.
  pose proof (unsigned_wrapper_iff 16 s base junk res res v) as U16.
  pose proof (unsigned_wrapper_iff 32 s base junk res res v) as U32.
  pose proof (signed_wrapper_iff 8 s base junk res res v) as S8.
  pose proof (signed_wrapper_iff 16 s base junk res res v) as S16.
  pose proof (signed_wrapper_iff 32 s base junk res res v) as S32.
  fold (kstrtou8 junk s base res) in U8. fold (kstrtou16 junk s base res) in U16.
  fold (kstrtouint junk s base res) in U32.
  fold (kstrtos8 junk s base res) in S8. fold (kstrtos16 junk s base res) in S16.
  fold (kstrtoint junk s base res) in S32.
  specialize (U8 ltac:(lia)). specialize (U16 ltac:(lia)).
  specialize (U32 ltac:(lia)). specialize (S8 ltac:(lia)).
  specialize (S16 ltac:(lia)). specialize (S32 ltac:(lia)).
  change (8 - 1) with 7 in S8. change (16 - 1) with 15 in S16.
  change (32 - 1) with 31 in S32.
  assert (Hus : kstrtoull s base res = (0, v) -> v < 2 ^ 63 ->
                kstrtoll junk s base res = (0, v) /\ 0 <= v).
  { intros H Hv. split; [apply (kstrtoull_then_kstrtoll junk s base res res v H Hv)|].
    apply (kstrtoull_success_range s base res v H). }
  repeat split; intros H.
  - apply U16. apply U8 in H. split; [tauto | lia].
  - apply U32. apply U16 in H. split; [tauto | lia].
  - apply U32 in H. tauto.
  - apply S16. apply S8 in H. split; [tauto | lia].
  - apply S32. apply S16 in H. split; [tauto | lia].
  - apply S32 in H. tauto.
  - apply S16. apply U8 in H. destruct H as [H Hv].
    destruct (Hus H ltac:(lia)). split; [assumption | lia].
  - apply S32. apply U16 in H. destruct H as [H Hv].
    destruct (Hus H ltac:(lia)). split; [assumption | lia].
  - apply U32 in H. destruct H as [H Hv]. apply (Hus H). lia.
Qed.

Lemma narrow_success_widens_witness :
  kstrtou8 0 "200" 10 1 = (0, 200) /\ kstrtos16 0 "200" 10 1 = (0, 200).
Proof.
  assert (H : kstrtou8 0 "200" 10 1 = (0, 200)) by (vm_compute; reflexivity).
  split; [exact H|].
  exact (proj1 (proj2 (proj2 (proj2 (proj2 (proj2 (proj2
           (narrow_success_widens 0 "200" 10 1 200))))))) H).
Defined.

(** ** Return codes, locals and bare prefixes *)

Lemma wrapper_codes (cast widen : Z -> Z) (wide : Z * Z) (res : Z) :
  fst wide = 0 \/ fst wide = - EINVAL \/ fst wide = - ERANGE ->
  let out := (let '(rv, tmp) := wide in
              if rv <? 0 then (rv, res)
              else if negb (tmp =? widen (cast tmp)) then (- ERANGE, res)
              else (0, cast tmp)) in
  fst out = 0 \/ fst out = - EINVAL \/ fst out = - ERANGE.
Proof.
  destruct wide as [rv tmp]; cbn [fst]. intros [->|[->| ->]]; cbn;
    try (destruct (negb _); cbn); auto.
Qed.

(** X10. The numeric parsers return 0, -EINVAL or -ERANGE and nothing
    else; the boolean parser returns 0 or -EINVAL. *)
Theorem return_codes
        (junk L : Z) (s : string) (base res : Z) (b : option string) (rb : bool) :
  let code_ok rc := rc = 0 \/ rc = - EINVAL \/ rc = - ERANGE in
  code_ok (fst (_kstrtoull s base res))
  /\ code_ok (fst (kstrtoull s base res))
  /\ code_ok (fst (kstrtoll junk s base res))
  /\ code_ok (fst (_kstrtoul junk L s base res))
  /\ code_ok (fst (_kstrtol junk L s base res))
  /\ code_ok (fst (kstrtouint junk s base res))
  /\ code_ok (fst (kstrtoint junk s base res))
  /\ code_ok (fst (kstrtou16 junk s base res))
  /\ code_ok (fst (kstrtos16 junk s base res))
  /\ code_ok (fst (kstrtou8 junk s base res))
  /\ code_ok (fst (kstrtos8 junk s base res))
  /\ (fst (kstrtobool b rb) = 0 \/ fst (kstrtobool b rb) = - EINVAL).
Proof.
  cbv zeta.
  split.
  { destruct (_kstrtoull_outcome s base res) as [[H _]|[[H|H] _]]; auto. }
  split; [apply kstrtoull_codes|].
  split; [apply kstrtoll_codes|].
  split; [apply wrapper_codes, kstrtoull_codes|].
  split; [apply wrapper_codes, kstrtoll_codes|].
  split; [apply wrapper_codes, kstrtoull_codes|].
  split; [apply wrapper_codes, kstrtoll_codes|].
  split; [apply wrapper_codes, kstrtoull_codes|].
  split; [apply wrapper_codes, kstrtoll_codes|].
  split; [apply wrapper_codes, kstrtoull_codes|].
  split; [apply wrapper_codes, kstrtoll_codes|].
  unfold kstrtobool. destruct b as [t|]; [|auto].
  repeat match goal with
         | |- context [if ?c then _ else _] => destruct c
         end; auto.
Qed.

(** X11. No outcome depends on what the uninitialised local [tmp] of a
    parser holds: it is read only after the 64-bit parse has written it. *)
Theorem uninitialised_locals_never_read
        (j1 j2 L : Z) (s : string) (base res : Z) :
  kstrtoll j1 s base res = kstrtoll j2 s base res
  /\ _kstrtoul j1 L s base res = _kstrtoul j2 L s base res
  /\ _kstrtol j1 L s base res = _kstrtol j2 L s base res
  /\ kstrtouint j1 s base res = kstrtouint j2 s base res
  /\ kstrtoint j1 s base res = kstrtoint j2 s base res
  /\ kstrtou16 j1 s base res = kstrtou16 j2 s base res
  /\ kstrtos16 j1 s base res = kstrtos16 j2 s base res
  /\ kstrtou8 j1 s base res = kstrtou8 j2 s base res
  /\ kstrtos8 j1 s base res = kstrtos8 j2 s base res.
Proof.
  split; [apply kstrtoll_indeterminate | apply wrappers_indeterminate].
Qed.

Lemma no_hex_digit_first (t : string) :
  match t with
  | String h _ => digit_value h = None
  | EmptyString => True
  end ->
  digit_run 16 t = []
  /\ forall c, autodetect_hex (String "0" (String c t)) = false.
Proof.
  destruct t as [|h t]; [split; reflexivity|].
  intros Hh. cbn [digit_run autodetect_hex]. rewrite Hh.
  split; [reflexivity|]. intros c. apply andb_false_r.
Qed.

(** X12. A hexadecimal prefix is not a number by itself: "0x" or "0X"
    followed by anything but a hex digit is INVALID, with base 0 as with
    base 16. *)
Theorem bare_hex_prefix_invalid (x : ascii) (t : string) (res : Z) :
  x = "x"%char \/ x = "X"%char ->
  match t with
  | String h _ => digit_value h = None
  | EmptyString => True
  end ->
  kstrtoull (String "0" (String x t)) 0 res = (- EINVAL, res)
  /\ kstrtoull (String "0" (String x t)) 16 res = (- EINVAL, res).
Proof.
  intros Hx Ht.
  destruct (no_hex_digit_first t Ht) as [Hrun Hauto].
  assert (Hp : hex_prefixed (String "0" (String x t)) = true)
    by (destruct Hx; subst x; reflexivity).
  assert (Hrun8 : digit_run 8 (String "0" (String x t)) = [0])
    by (destruct Hx; subst x; reflexivity).
  assert (Hrest : ((String x t).[0] =? `"010") = false
                  /\ ((String x t).[0] =? 0) = false)
    by (destruct Hx; subst x; split; reflexivity).
  destruct Hrest as [Hnl Hnul].
  assert (Hfix0 : _parse_integer_fixup_radix (String "0" (String x t)) 0
                  = (String "0" (String x t), 8)).
  { rewrite (surjective_pairing (_parse_integer_fixup_radix _ 0)).
    rewrite fixup_radix_skip, fixup_radix_autodetect, Hauto. reflexivity. }
  assert (Hfix16 : _parse_integer_fixup_radix (String "0" (String x t)) 16
                   = (t, 16)).
  { rewrite (surjective_pairing (_parse_integer_fixup_radix _ 16)).
    rewrite fixup_radix_skip, fixup_radix_explicit, Hp by discriminate.
    reflexivity. }
  unfold kstrtoull.
  change ((String "0" (String x t)).[0] =? `"+") with false. cbv iota.
  unfold _kstrtoull.
  split.
  - rewrite Hfix0, _parse_integer_spec, Hrun8.
    change (Z.of_nat (List.length [0]) mod 2 ^ 32) with 1.
    change (Z.land 1 KSTRTOX_OVERFLOW =? 0) with true.
    change (1 =? 0) with false.
    change (Z.to_nat 1) with 1%nat.
    cbn [negb advance]. rewrite Hnl, Hnul. reflexivity.
  - rewrite Hfix16, _parse_integer_spec, Hrun. reflexivity.
Qed.

Lemma bare_hex_prefix_invalid_witness :
  ("X"%char = "x"%char \/ "X"%char = "X"%char)
  /\ digit_value "g" = None
  /\ kstrtoull "0Xg1" 0 4 = (- EINVAL, 4)
  /\ kstrtoull "0Xg1" 16 4 = (- EINVAL, 4).
Proof.
  assert (H1 : "X"%char = "x"%char \/ "X"%char = "X"%char) by (right; reflexivity).
  assert (H2 : digit_value "g" = None) by reflexivity.
  split; [exact H1|]. split; [exact H2|].
  exact (bare_hex_prefix_invalid "X"%char "g1" 4 H1 H2).
Defined.

Lemma digit_run_base_zero (s : string) : digit_run 0 s = [].
Proof.
  destruct s as [|c s]; cbn [digit_run]; [reflexivity|].
  destruct (digit_value c) as [v|] eqn:Hv; [|reflexivity].
  pose proof (digit_value_range c v Hv) as Hr.
  replace (v <? 0) with false by (symmetry; apply Z.ltb_ge; lia).
  reflexivity.
Qed.

(** X13. Given base 0 as it is, without radix resolution, the accumulator
    consumes no character, whatever the string: it returns 0 and stores
    0. *)
Theorem parse_integer_base_zero (s : string) : _parse_integer s 0 = (0, 0).
Proof. rewrite _parse_integer_spec, digit_run_base_zero. reflexivity. Qed.

(** ** Inputs of 2^31 characters and more

    The count of consumed characters is an [unsigned int] that shares bit 31
    with the overflow flag: past 2^31 digits it is no longer the number of
    digits. *)







